(** * cli.blocks: commands, commandlets, modes and the argument tokenizer

    A shallow embedding of [blocks.py].  Python strings are embedded as
    [string], one [ascii] per code point (code points below 256); class
    attributes that the code mutates are threaded as explicit state; raised
    exceptions are values of [exn].  The input of a mode is the list of the
    lines that [input] will read, and its output the list of the texts
    written; logging has no effect on either and is left out.  A command
    body is a function on the state it can reach; it does not read the
    input itself. *)

From Stdlib Require Import Ascii ZArith.
From stdpp Require Import base tactics option list gmap strings sorting.
From Equations Require Import Equations.

Local Open Scope Z_scope.

(** ** Python primitives used by the module *)

Module Py.

Inductive exn : Type :=
| TypeError
| ValueError
| IndexError
| AttributeError
| EOFError
| StopIteration
| IncorrectCommand (msg : string)
| IncorrectArguments (msg : string).

(** The outcome of evaluating an expression: a value or a raised exception. *)
Inductive result (A : Type) : Type :=
| Ret (a : A)
| Raise (e : exn).
Arguments Ret {A} a.
Arguments Raise {A} e.

Definition space : ascii := "032"%char.
Definition dquote : ascii := "034"%char.
Definition squote : ascii := "039"%char.
Definition newline : ascii := "010"%char.
Definition tab : ascii := "009"%char.

Definition eqc (a b : ascii) : bool := Ascii.eqb a b.

(** [c in s] for a one-character string [c]. *)
Fixpoint mem (c : ascii) (s : string) : bool :=
  match s with
  | EmptyString => false
  | String d s' => eqc c d || mem c s'
  end.

(** [str.isspace] on one code point below 256. *)
Definition isspace (c : ascii) : bool :=
  let n := N_of_ascii c in
  ((9 <=? n) && (n <=? 13) || (28 <=? n) && (n <=? 32)
   || (n =? 133) || (n =? 160))%N.

Fixpoint lstrip (s : string) : string :=
  match s with
  | EmptyString => EmptyString
  | String c s' => if isspace c then lstrip s' else s
  end.

Fixpoint rstrip (s : string) : string :=
  match s with
  | EmptyString => EmptyString
  | String c s' =>
      match rstrip s' with
      | EmptyString => if isspace c then EmptyString else String c EmptyString
      | r => String c r
      end
  end.

(** [s.strip()] *)
Definition strip (s : string) : string := rstrip (lstrip s).

(** [s.split(sep)] for a one-character separator: never the empty list. *)
Fixpoint split (sep : ascii) (s : string) : list string :=
  match s with
  | EmptyString => [EmptyString]
  | String c s' =>
      if eqc c sep then EmptyString :: split sep s'
      else match split sep s' with
           | w :: ws => String c w :: ws
           | [] => [String c EmptyString]
           end
  end.

(** [sep.join(parts)] *)
Fixpoint join (sep : string) (parts : list string) : string :=
  match parts with
  | [] => EmptyString
  | [p] => p
  | p :: ps => p +:+ sep +:+ join sep ps
  end.

(** [s.ljust(width)] *)
Definition ljust (s : string) (width : nat) : string :=
  s +:+ String.concat EmptyString (replicate (width - String.length s)%nat " ").

(** Truthiness of a string. *)
Definition truthy (s : string) : bool :=
  match s with EmptyString => false | _ => true end.

Definition digit (c : ascii) : option Z :=
  let n := N_of_ascii c in
  if ((48 <=? n) && (n <=? 57))%N then Some (Z.of_N n - 48) else None.

(** Decimal digits, single underscores allowed between two digits. *)
Fixpoint digits (acc : Z) (after_digit : bool) (s : string) : option Z :=
  match s with
  | EmptyString => if after_digit then Some acc else None
  | String c s' =>
      match digit c with
      | Some d => digits (10 * acc + d) true s'
      | None =>
          if eqc c "_" && after_digit then digits acc false s' else None
      end
  end.

(** [int(s)] for a string [s], in base ten. *)
Definition int_of_str (s : string) : result Z :=
  let body :=
    match strip s with
    | String "+" s' => digits 0 false s'
    | String "-" s' => Z.opp <$> digits 0 false s'
    | s' => digits 0 false s'
    end in
  match body with
  | Some z => Ret z
  | None => Raise ValueError
  end.

(** The values passed to commands: strings typed by the user, the mode
    instance a command runs on (the receiver), and [None]. *)
Inductive pyval : Type :=
| VNone
| VStr (s : string)
| VSelf.

End Py.

Import Py.

(** ** ArgumentParser *)

Module ArgumentParser.

Record t : Type := mk {
  tokens : string;
  curr_token : option ascii;
  prev_token : option ascii;
  buffer : string;
  arguments : list string;
  quote : option ascii
}.

(** [ArgumentParser.__init__] *)
Definition __init__ : t :=
  {| tokens := String space (String dquote (String squote (String newline EmptyString)));
     curr_token := None;
     prev_token := None;
     buffer := EmptyString;
     arguments := [];
     quote := None |}.

(** Methods run on the instance: a state and error monad over [t]. *)
Definition M (A : Type) : Type := t → result (A * t).

Definition ret {A} (a : A) : M A := λ st, Ret (a, st).
Definition raise {A} (e : exn) : M A := λ _, Raise e.
Definition bind {A B} (m : M A) (k : A → M B) : M B :=
  λ st, match m st with
        | Ret (a, st') => k a st'
        | Raise e => Raise e
        end.
Definition get : M t := λ st, Ret (st, st).
Definition put (st : t) : M unit := λ _, Ret (tt, st).

Notation "'let*' x ':=' m 'in' k" := (bind m (λ x, k))
  (at level 10, x name, m at level 100, k at level 200).
Notation "'run' m 'in' k" := (bind m (λ _, k))
  (at level 10, m at level 100, k at level 200).

(** [x in s] where [x] is an attribute that may still hold [None]:
    Python raises [TypeError] for a left operand that is not a string. *)
Definition contains (s : string) (x : option ascii) : M bool :=
  match x with
  | Some c => ret (mem c s)
  | None => raise TypeError
  end.

Definition blanks : string := String space (String newline EmptyString).
Definition quotes : string := String dquote (String squote EmptyString).

(** [change_token]: only the two assignments have an effect on the state. *)
Definition change_token (new_token : ascii) : M unit :=
  let* st := get in
  put {| tokens := tokens st; curr_token := Some new_token;
         prev_token := curr_token st; buffer := buffer st;
         arguments := arguments st; quote := quote st |}.

Definition flush_buffer : M string :=
  let* st := get in
  run put {| tokens := tokens st; curr_token := curr_token st;
             prev_token := prev_token st; buffer := EmptyString;
             arguments := arguments st; quote := quote st |} in
  ret (buffer st).

Definition append_argument (data : string) : M unit :=
  let* st := get in
  put {| tokens := tokens st; curr_token := curr_token st;
         prev_token := prev_token st; buffer := buffer st;
         arguments := arguments st ++ [data]; quote := quote st |}.

Definition set_quote (q : option ascii) : M unit :=
  let* st := get in
  put {| tokens := tokens st; curr_token := curr_token st;
         prev_token := prev_token st; buffer := buffer st;
         arguments := arguments st; quote := q |}.

Definition append_buffer (symbol : ascii) : M unit :=
  let* st := get in
  put {| tokens := tokens st; curr_token := curr_token st;
         prev_token := prev_token st;
         buffer := buffer st +:+ String symbol EmptyString;
         arguments := arguments st; quote := quote st |}.

(** [self.prev_token and self.prev_token in quotes], as a condition. *)
Definition prev_is_quote : M bool :=
  let* st := get in
  match prev_token st with
  | None => ret false
  | Some _ => contains quotes (prev_token st)
  end.

Definition process_token (symbol : ascii) : M unit :=
  run change_token symbol in
  let* st := get in
  let* is_blank := contains blanks (curr_token st) in
  if is_blank then
    let* after_quote := prev_is_quote in
    if after_quote then
      let* data := flush_buffer in
      append_argument data
    else
      let* data := flush_buffer in
      if truthy data then append_argument data else ret tt
  else
    let* is_quote := contains quotes (curr_token st) in
    if is_quote then
      match quote st with
      | None => set_quote (curr_token st)
      | Some _ => set_quote None
      end
    else ret tt.

(** The body of the [for symbol in ...] loop of [__call__]. *)
Definition feed (symbol : ascii) : M unit :=
  let* st := get in
  match quote st with
  | Some q =>
      if eqc symbol q then process_token symbol else append_buffer symbol
  | None =>
      if mem symbol (tokens st) then process_token symbol
      else append_buffer symbol
  end.

Fixpoint feed_all (s : string) : M unit :=
  match s with
  | EmptyString => ret tt
  | String symbol s' => run feed symbol in feed_all s'
  end.

(** [ArgumentParser.__call__] *)
Definition __call__ (argument_string : string) : M (list string) :=
  run feed_all (strip argument_string) in
  run process_token newline in
  let* st := get in
  ret (arguments st).

(** [ArgumentParser()(line)]: a fresh instance used once. *)
Definition parse (line : string) : result (list string) :=
  match __call__ line __init__ with
  | Ret (args, _) => Ret args
  | Raise e => Raise e
  end.

End ArgumentParser.

(** ** Commandlet *)

Module Commandlet.

(** The class attributes [command_width] and [arguments_width]. *)
Record widths : Type := mk_widths {
  command_width : nat;
  arguments_width : nat
}.

Definition initial : widths := {| command_width := 0; arguments_width := 0 |}.

(** The attributes of a commandlet other than the wrapped function. *)
Record attrs : Type := mk_attrs {
  description : string;
  command : string;
  number : Z;
  func_help : option string;
  arguments : list string;
  arguments_usage : string;
  arguments_help : list (string * string);
  arguments_max : Z;
  arguments_min : Z
}.

(** What a running command can see and change: the text written so far,
    the instance attributes [name], [context] and [namespace] of the mode
    it runs in, and the class-level widths.  The namespace is visible
    through the attributes of its entries. *)
Record runtime : Type := mk_runtime {
  stdout : list string;
  name : option string;
  context : option string;
  namespace : list attrs;
  class_widths : widths
}.

(** A call with positional arguments [args] and keyword arguments
    [kwargs], which keep their order. *)
Definition callable : Type :=
  list pyval → list (string * pyval) → runtime → runtime * result pyval.

(** A function object, with the attributes the module reads from it. *)
Record function : Type := mk_function {
  __name__ : string;
  __doc__ : option string;
  co_varnames : list string;
  co_argcount : nat;
  __defaults__ : option (list pyval);
  __annotations__ : list (string * string);
  body : callable
}.

Record t : Type := mk {
  attributes :> attrs;
  func : function
}.

(** The loop [for num, arg in enumerate(co_varnames)], from index [num]. *)
Fixpoint collect_arguments (argcount num : nat) (varnames : list string)
  : list string :=
  match varnames with
  | [] => []
  | arg :: rest =>
      if decide (num < argcount)%nat
      then arg :: collect_arguments argcount (S num) rest
      else collect_arguments argcount (S num) rest
  end.

Definition len {A} (l : list A) : Z := Z.of_nat (length l).

(** [Commandlet.__init__] *)
Definition __init__ (description command : string) (number : Z)
    (func : function) (cls : widths) : t * widths :=
  let arguments := collect_arguments (co_argcount func) 0 (co_varnames func) in
  let arguments_usage :=
    join " " (map (λ arg, "[" +:+ arg +:+ "]") (tail arguments)) in
  let arguments_max := len arguments in
  let arguments_min :=
    match __defaults__ func with
    | None => arguments_max
    | Some defaults => arguments_max - len defaults
    end in
  let arguments_width' :=
    if decide (arguments_width cls < String.length arguments_usage)%nat
    then String.length arguments_usage else arguments_width cls in
  let command_width' :=
    if decide (command_width cls < String.length command)%nat
    then String.length command else command_width cls in
  ({| attributes :=
        {| description := description;
           command := command;
           number := number;
           func_help := __doc__ func;
           arguments := arguments;
           arguments_usage := arguments_usage;
           arguments_help := __annotations__ func;
           arguments_max := arguments_max;
           arguments_min := arguments_min |};
      func := func |},
   {| command_width := command_width'; arguments_width := arguments_width' |}).

(** The property [short_help]; the widths are read from the class. *)
Definition short_help (self : attrs) (cls : widths) : string :=
  String tab (ljust (command self) (command_width cls)) +:+ "    " +:+
  ljust (arguments_usage self) (arguments_width cls) +:+ "    " +:+
  description self.

(** [d[key]] on a dictionary kept as its items: [None] is [KeyError]. *)
Fixpoint getitem {V} (d : list (string * V)) (key : string) : option V :=
  match d with
  | [] => None
  | (k, v) :: d' => if String.eqb k key then Some v else getitem d' key
  end.

(** The loop over [self.arguments[1:]] in [long_help]. *)
Fixpoint collect_arg_lines (help : list (string * string))
    (names : list string) (arg_width : nat) (arg_lines : list (string * string))
  : nat * list (string * string) :=
  match names with
  | [] => (arg_width, arg_lines)
  | arg_name :: rest =>
      match getitem help arg_name with
      | None => collect_arg_lines help rest arg_width arg_lines
      | Some arg_help =>
          let arg_width' :=
            if decide (arg_width < String.length arg_name)%nat
            then String.length arg_name else arg_width in
          collect_arg_lines help rest arg_width'
                            (arg_lines ++ [(arg_name, arg_help)])
      end
  end.

Definition nl : string := String newline EmptyString.

(** The property [long_help]. *)
Definition long_help (self : attrs) : string :=
  let lines := ["Name:"] in
  let lines :=
    if truthy (description self)
    then lines ++ [String tab (command self +:+ " - " +:+ description self)]
    else lines ++ [command self] in
  let lines := lines ++ [EmptyString] in
  let lines := lines ++ ["Usage:"] in
  let lines :=
    lines ++ [String tab (command self +:+ " " +:+ arguments_usage self)] in
  let lines :=
    match arguments_help self with
    | [] => lines
    | _ =>
        let lines := lines ++ [EmptyString] in
        let lines := lines ++ ["Arguments:"] in
        let '(arg_width, arg_lines) :=
          collect_arg_lines (arguments_help self) (tail (arguments self)) 0 [] in
        lines ++ map (λ arg, String tab (ljust arg.1 arg_width +:+ " - " +:+ arg.2))
                     arg_lines
    end in
  let lines :=
    match func_help self with
    | Some doc =>
        if truthy doc then
          let lines := lines ++ [EmptyString] in
          let lines := lines ++ ["Description:"] in
          let func_help_lines := map strip (split newline (strip doc)) in
          lines ++ [String tab (join (String newline (String tab EmptyString))
                                      func_help_lines)]
        else lines
    | None => lines
    end in
  join nl lines.

Definition has_argument (self : attrs) (name : string) : bool :=
  bool_decide (name ∈ arguments self).

(** [Commandlet.__call__] *)
Definition __call__ (self : t) : callable :=
  λ args kwargs rt,
  let arguments_passed := len args + len kwargs in
  if decide (arguments_passed > arguments_max self) then
    (rt, Raise (IncorrectArguments "exceeded maximum number of arguments"))
  else if decide (arguments_passed < arguments_min self) then
    (rt, Raise (IncorrectArguments "not enough arguments"))
  else
    match find (λ name, negb (has_argument self name)) (map fst kwargs) with
    | Some name =>
        (rt, Raise (IncorrectArguments ("wrong keyword argument: " +:+ name)))
    | None => body (func self) args kwargs rt
    end.

(** [Commandlet.__eq__] *)
Definition __eq__ (self other : attrs) : bool :=
  String.eqb (command self) (command other).

End Commandlet.

(** ** Command: the descriptor and the ordinal registry *)

Module Command.

(** The class attributes [number_free] and [number_used]. *)
Record registry : Type := mk_registry {
  number_free : Z;
  number_used : gset Z
}.

Definition initial : registry :=
  {| number_free := 0; number_used := ∅ |}.

(** The [number] argument when it is not [None]: an [int] or a [str]. *)
Inductive number_arg : Type :=
| NumInt (z : Z)
| NumStr (s : string).

(** [int(number)] *)
Definition int (number : number_arg) : result Z :=
  match number with
  | NumInt z => Ret z
  | NumStr s => int_of_str s
  end.

(** The loop [while True: if num in number_used: num += 1 else: break].
    Each round leaves one member of the finite set behind. *)
Equations? probe (used : gset Z) (num : Z) : Z
  by wf (size (filter (λ x, num ≤ x) used)) lt :=
  probe used num with decide (num ∈ used) := {
    | left _ => probe used (num + 1)
    | right _ => num }.
Proof.
  apply subset_size. split.
  - intros x. rewrite !elem_of_filter. intros [? ?]. split; [lia | done].
  - intros Hsub. specialize (Hsub num).
    rewrite !elem_of_filter in Hsub.
    destruct Hsub as [? _]; [split; [lia | done] | lia].
Defined.

(** [Command.set_number] *)
Definition set_number (number : option number_arg) (cls : registry)
  : result (Z * registry) :=
  match number with
  | None =>
      let num := number_free cls in
      let cls' := {| number_free := number_free cls + 1;
                     number_used := number_used cls |} in
      Ret (probe (number_used cls') num, cls')
  | Some a =>
      match int a with
      | Ret num => Ret (probe (number_used cls) num, cls)
      | Raise e => Raise e
      end
  end.

(** A descriptor: the instance attributes set by [Command.__init__]. *)
Record t : Type := mk {
  description : string;
  command : option string;
  number : Z
}.

(** [Command.__init__] *)
Definition __init__ (description : string) (command : option string)
    (number : option number_arg) (cls : registry) : result (t * registry) :=
  match set_number number cls with
  | Ret (num, cls') =>
      Ret ({| description := description; command := command; number := num |},
           cls')
  | Raise e => Raise e
  end.

(** [Command.get_command] *)
Definition get_command (self : t) (func : Commandlet.function) : string :=
  match command self with
  | None => Commandlet.__name__ func
  | Some c => c
  end.

(** [Command.__call__]: the decorator applied to a function. *)
Definition __call__ (self : t) (func : Commandlet.function)
    (cls : Commandlet.widths) : Commandlet.t * Commandlet.widths :=
  Commandlet.__init__ (description self) (get_command self func)
                      (number self) func cls.

End Command.

(** ** Mode *)

Module Mode.

Import Commandlet.

(** A class attribute: a commandlet, or anything else. *)
Inductive attribute : Type :=
| Other
| Cmdlet (value : Commandlet.t).

(** A class: the items of its [__dict__] in definition order, and its
    [__bases__]. *)
#[warnings="-register-all"]
Inductive class : Type :=
| Class (items : list (string * attribute)) (bases : list class).

(** [value not in namespace]: list membership goes through [__eq__]. *)
Definition not_in (value : Commandlet.t) (namespace : list Commandlet.t) : bool :=
  negb (existsb (λ x : Commandlet.t, Commandlet.__eq__ x value) namespace).

(** The loop over [cls.__dict__.items()] in [get_commandlets]. *)
Fixpoint collect_items (items : list (string * attribute))
    (namespace : list Commandlet.t) : list Commandlet.t :=
  match items with
  | [] => namespace
  | (key, Cmdlet value) :: rest =>
      if not_in value namespace
      then collect_items rest (namespace ++ [value])
      else collect_items rest namespace
  | (key, Other) :: rest => collect_items rest namespace
  end.

(** The local function [get_commandlets]; the list it appends to is
    passed in and returned. *)
Fixpoint get_commandlets (cls : class) (namespace : list Commandlet.t)
  : list Commandlet.t :=
  match cls with
  | Class items bases =>
      let namespace := collect_items items namespace in
      (fix over_bases (bases : list class) (namespace : list Commandlet.t) :=
         match bases with
         | [] => namespace
         | base :: rest => over_bases rest (get_commandlets base namespace)
         end) bases namespace
  end.

(** [Mode.build_namespace], for an instance of class [cls]. *)
Definition build_namespace (cls : class) : list Commandlet.t :=
  get_commandlets cls [].

Definition set_stdout (out : list string) (rt : runtime) : runtime :=
  {| stdout := out; name := name rt; context := context rt;
     namespace := namespace rt; class_widths := class_widths rt |}.

Definition set_namespace (ns : list attrs) (rt : runtime) : runtime :=
  {| stdout := stdout rt; name := name rt; context := context rt;
     namespace := ns; class_widths := class_widths rt |}.

(** [print(s)] *)
Definition print (s : string) (rt : runtime) : runtime :=
  set_stdout (stdout rt ++ [s +:+ nl]) rt.

Definition prompt (rt : runtime) : string :=
  let name := default "unnamed" (name rt) in
  match context rt with
  | Some context =>
      if truthy context then name +:+ "(" +:+ context +:+ "): "
      else name +:+ ": "
  | None => name +:+ ": "
  end.

(** [input(prompt)]: the prompt is written, then a line is read; [None]
    stands for the end of the input. *)
Definition input (prompt : string) (line : option string) (rt : runtime)
  : runtime * result string :=
  let rt := set_stdout (stdout rt ++ [prompt]) rt in
  match line with
  | Some l => (rt, Ret l)
  | None => (rt, Raise EOFError)
  end.

(** [l[0]] *)
Definition first {A} (l : list A) : result A :=
  match l with
  | x :: _ => Ret x
  | [] => Raise IndexError
  end.

(** [Mode.get_user_input] *)
Definition get_user_input (line : option string) (rt : runtime)
  : runtime * result (string * list string) :=
  match input (prompt rt) line rt with
  | (rt, Raise e) => (rt, Raise e)
  | (rt, Ret text) =>
      let user_input := strip text in
      match first (split space user_input) with
      | Raise e => (rt, Raise e)
      | Ret command_name =>
          let arguments_string := join " " (tail (split space user_input)) in
          match ArgumentParser.parse arguments_string with
          | Raise e => (rt, Raise e)
          | Ret arguments => (rt, Ret (command_name, arguments))
          end
      end
  end.

(** The scan of [lookup_command], over entries whose command is read
    by [command_of]. *)
Fixpoint lookup_in {A} (command_of : A → string) (namespace : list A)
    (command_input : string) : result A :=
  match namespace with
  | [] => Raise (IncorrectCommand command_input)
  | command :: rest =>
      if String.eqb (command_of command) command_input then Ret command
      else lookup_in command_of rest command_input
  end.

(** [Mode.lookup_command] *)
Definition lookup_command (namespace : list Commandlet.t)
    (command_input : string) : result Commandlet.t :=
  lookup_in (λ c : Commandlet.t, command c) namespace command_input.

(** Binding of a call to positional-or-keyword parameters [params], the
    last of which have the default values [defaults]. *)
Definition bind_arguments (params : list string) (defaults : list pyval)
    (args : list pyval) (kwargs : list (string * pyval)) : result (list pyval) :=
  let keys := map fst kwargs in
  let required := (length params - length defaults)%nat in
  if decide (length params < length args)%nat then Raise TypeError
  else if existsb (λ k, negb (bool_decide (k ∈ params))) keys then Raise TypeError
  else if existsb (λ k, bool_decide (k ∈ take (length args) params)) keys
  then Raise TypeError
  else
    let bound :=
      imap (λ i p,
              match getitem kwargs p with
              | Some v => Some v
              | None => if decide (required ≤ i)%nat
                        then defaults !! (i - required)%nat else None
              end) params in
    match mapM id (drop (length args) bound) with
    | Some rest => Ret (args ++ rest)
    | None => Raise TypeError
    end.

(** Truthiness of a value. *)
Definition truth (v : pyval) : bool :=
  match v with
  | VNone => false
  | VStr s => truthy s
  | VSelf => true
  end.

(** [sorted(namespace, key=lambda x: x.number)]: a stable sort. *)
Fixpoint insert_by_number (x : attrs) (l : list attrs) : list attrs :=
  match l with
  | [] => [x]
  | y :: l' =>
      if decide (number x < number y) then x :: l
      else y :: insert_by_number x l'
  end.

Definition sorted_by_number (l : list attrs) : list attrs :=
  fold_left (λ acc x, insert_by_number x acc) l [].

(** The body of [Mode.help].  A receiver that is no mode instance has no
    [namespace]; a command name that is no string equals no command, and
    the text of the message is then the default rendering of an object,
    written here without its address. *)
Definition help_body : callable :=
  λ args kwargs rt,
  match bind_arguments ["self"; "command_name"] [VStr EmptyString] args kwargs with
  | Ret [self; command_name] =>
      match self with
      | VSelf =>
          if negb (truth command_name) then
            let rt := print "Available commands:" rt in
            let rt :=
              fold_left (λ rt command, print (short_help command (class_widths rt)) rt)
                        (sorted_by_number (namespace rt)) rt in
            (print EmptyString rt, Ret VNone)
          else
            let looked_up :=
              match command_name with
              | VStr s => lookup_in command (namespace rt) s
              | _ => Raise (IncorrectCommand "<cli.blocks.Mode object>")
              end in
            match looked_up with
            | Ret command => (print EmptyString (print (long_help command) rt), Ret VNone)
            | Raise (IncorrectCommand msg) =>
                (print EmptyString (print ("Incorrect command: " +:+ msg) rt), Ret VNone)
            | Raise e => (rt, Raise e)
            end
      | _ => (rt, Raise AttributeError)
      end
  | Ret _ => (rt, Raise TypeError)
  | Raise e => (rt, Raise e)
  end.

(** The body of [Mode.exit]. *)
Definition exit_body : callable :=
  λ args kwargs rt,
  match bind_arguments ["self"] [] args kwargs with
  | Ret _ => (rt, Raise StopIteration)
  | Raise e => (rt, Raise e)
  end.

Definition help_function : function :=
  {| __name__ := "help";
     __doc__ := Some (nl +:+ "        Prints list of available commands of current mode, or detailed command info if command name is specified." +:+ nl +:+ "        ");
     co_varnames := ["self"; "command_name"; "command"; "e"];
     co_argcount := 2;
     __defaults__ := Some [VStr EmptyString];
     __annotations__ :=
       [("command_name", "Specifies command name to get detailed usage information.")];
     body := help_body |}.

Definition exit_function : function :=
  {| __name__ := "exit";
     __doc__ := None;
     co_varnames := ["self"];
     co_argcount := 1;
     __defaults__ := None;
     __annotations__ := [];
     body := exit_body |}.

(** The value of an expression that does not raise. *)
Definition value_of {A} (r : result A)
  : match r with Ret _ => A | Raise _ => exn end :=
  match r with
  | Ret a => a
  | Raise e => e
  end.

(** The class body of [Mode], run when the module is imported: the two
    decorators are applied in turn, from the initial class attributes of
    [Command] and [Commandlet]. *)
Definition help_descriptor : Command.t * Command.registry :=
  value_of (Command.__init__ "Print this message" None
                             (Some (Command.NumInt 998)) Command.initial).

Definition help_commandlet : Commandlet.t * widths :=
  Command.__call__ help_descriptor.1 help_function Commandlet.initial.

Definition exit_descriptor : Command.t * Command.registry :=
  value_of (Command.__init__ EmptyString None
                             (Some (Command.NumStr "999")) help_descriptor.2).

Definition exit_commandlet : Commandlet.t * widths :=
  Command.__call__ exit_descriptor.1 exit_function help_commandlet.2.

(** [object]: no attribute of it is a commandlet. *)
Definition object : class := Class [] [].

(** The class [Mode]: its methods, in the order of the class body; the
    entries the interpreter adds on its own are no commandlets either. *)
Definition Mode : class :=
  Class [("__call__", Other); ("build_namespace", Other);
         ("get_user_input", Other); ("lookup_command", Other);
         ("help", Cmdlet help_commandlet.1);
         ("exit", Cmdlet exit_commandlet.1)]
        [object].

(** The [try] block of the main loop. *)
Definition dispatch (namespace : list Commandlet.t) (command_name : string)
    (arguments : list string) (rt : runtime) : runtime * result pyval :=
  match lookup_command namespace command_name with
  | Raise e => (rt, Raise e)
  | Ret command =>
      Commandlet.__call__ command (VSelf :: map VStr arguments) [] rt
  end.

(** How [Mode.__call__] returns. *)
Inductive ending : Type :=
| Terminated
| Propagated (e : exn).

(** The [except] clauses of the main loop: [None] when the loop goes on
    with its next round. *)
Definition handle (rt : runtime) (outcome : result pyval)
  : runtime * option ending :=
  match outcome with
  | Ret _ => (rt, None)
  | Raise (IncorrectCommand msg) =>
      (print ("Incorrect command: " +:+ msg) rt, None)
  | Raise (IncorrectArguments msg) =>
      (print ("Incorrect arguments passed: " +:+ msg) rt, None)
  | Raise StopIteration => (rt, Some Terminated)
  | Raise e => (rt, Some (Propagated e))
  end.

(** One round of the loop, on the line that [input] reads.  What
    [get_user_input] raises is raised outside the [try] block. *)
Definition round (namespace : list Commandlet.t) (line : option string)
    (rt : runtime) : runtime * option ending :=
  match get_user_input line rt with
  | (rt, Raise e) => (rt, Some (Propagated e))
  | (rt, Ret (command_name, arguments)) =>
      let '(rt, outcome) := dispatch namespace command_name arguments rt in
      handle rt outcome
  end.

(** The [while True] loop of [Mode.__call__]: every round reads one line
    of [stdin]; at the end of the input the round ends the loop, for
    [input] raises [EOFError] there. *)
Fixpoint loop (namespace : list Commandlet.t) (stdin : list string)
    (rt : runtime) : runtime * ending :=
  match stdin with
  | [] =>
      let '(rt, _) := round namespace None rt in (rt, Propagated EOFError)
  | line :: rest =>
      match round namespace (Some line) rt with
      | (rt, None) => loop namespace rest rt
      | (rt, Some e) => (rt, e)
      end
  end.

(** [Mode.__call__], for an instance of class [cls]. *)
Definition __call__ (cls : class) (stdin : list string) (rt : runtime)
  : runtime * ending :=
  let namespace := build_namespace cls in
  loop namespace stdin (set_namespace (map attributes namespace) rt).

End Mode.

(** ** test_blocks.TestArgumentParser *)

Module TestArgumentParser.

Definition quoted (q : ascii) (s : string) : string :=
  String q s +:+ String q EmptyString.

Definition test_input : string :=
  " test " +:+ quoted dquote EmptyString +:+ " " +:+
  quoted dquote "with space" +:+ "   " +:+
  quoted squote ("with " +:+ quoted dquote "space and different" +:+ " quote")
  +:+ " case ".

Definition known_output : list string :=
  ["test"; EmptyString; "with space";
   "with " +:+ quoted dquote "space and different" +:+ " quote"; "case"].

End TestArgumentParser.

(** * Properties *)

(** ** The tokenizer *)

Section ArgumentParser_properties.

Import ArgumentParser.

(** Whether the token seen last is one of the two quote characters. *)
Definition is_quote (x : option ascii) : bool :=
  match x with
  | Some c => mem c quotes
  | None => false
  end.

(** The state [process_token] leaves behind, in closed form. *)
Definition token_step (symbol : ascii) (st : t) : t :=
  if mem symbol blanks then
    {| tokens := tokens st; curr_token := Some symbol;
       prev_token := curr_token st; buffer := EmptyString;
       arguments :=
         if is_quote (curr_token st) || truthy (buffer st)
         then arguments st ++ [buffer st] else arguments st;
       quote := quote st |}
  else
    {| tokens := tokens st; curr_token := Some symbol;
       prev_token := curr_token st; buffer := buffer st;
       arguments := arguments st;
       quote :=
         if mem symbol quotes
         then match quote st with None => Some symbol | Some _ => None end
         else quote st |}.

(** The state after a symbol that is added to the buffer. *)
Definition literal_step (symbol : ascii) (st : t) : t :=
  {| tokens := tokens st; curr_token := curr_token st;
     prev_token := prev_token st;
     buffer := buffer st +:+ String symbol EmptyString;
     arguments := arguments st; quote := quote st |}.

Definition symbol_step (symbol : ascii) (st : t) : t :=
  match quote st with
  | Some q =>
      if eqc symbol q then token_step symbol st else literal_step symbol st
  | None =>
      if mem symbol (tokens st) then token_step symbol st
      else literal_step symbol st
  end.

Fixpoint symbols_step (s : string) (st : t) : t :=
  match s with
  | EmptyString => st
  | String symbol s' => symbols_step s' (symbol_step symbol st)
  end.

Lemma process_token_step symbol st :
  process_token symbol st = Ret (tt, token_step symbol st).
Proof.
  destruct st as [tk cur prev buf args q].
  unfold process_token, token_step, change_token, prev_is_quote, flush_buffer,
    append_argument, set_quote, contains, is_quote, bind, get, put, ret.
  cbn -[mem].
  destruct (mem symbol blanks); cbn -[mem].
  - destruct cur as [p|]; cbn -[mem];
      [destruct (mem p quotes); cbn -[mem]|]; destruct buf; reflexivity.
  - destruct (mem symbol quotes); cbn -[mem]; [destruct q|]; reflexivity.
Qed.

Lemma feed_step symbol st : feed symbol st = Ret (tt, symbol_step symbol st).
Proof.
  unfold feed, symbol_step, literal_step, append_buffer, bind, get, put.
  destruct (quote st) as [q|] eqn:Hq; rewrite <- ?Hq.
  - destruct (eqc symbol q); [apply process_token_step | reflexivity].
  - destruct (mem symbol (tokens st)); [apply process_token_step | reflexivity].
Qed.

Lemma feed_all_step s st : feed_all s st = Ret (tt, symbols_step s st).
Proof.
  revert st. induction s as [|symbol s IH]; intros st; simpl; [reflexivity|].
  unfold bind. rewrite feed_step. apply IH.
Qed.

(** The state in which [__call__] returns. *)
Definition final (argument_string : string) (st : t) : t :=
  token_step newline (symbols_step (strip argument_string) st).

Lemma call_final argument_string st :
  __call__ argument_string st
  = Ret (arguments (final argument_string st), final argument_string st).
Proof.
  unfold __call__, bind. rewrite feed_all_step, process_token_step.
  reflexivity.
Qed.

Lemma parse_final line : parse line = Ret (arguments (final line __init__)).
Proof. unfold parse. rewrite call_final. reflexivity. Qed.

(** C5: the line of [test_call__] parses to the five expected tokens, in
    order: test, the empty string, with space, the single-quoted segment
    with its inner double quotes kept, and case. *)
Theorem parse_test_input :
  parse TestArgumentParser.test_input = Ret TestArgumentParser.known_output.
Proof. vm_compute. reflexivity. Qed.

(** C6: parsing with a fresh tokenizer never raises, whatever the input,
    and the tuple it returns is determined by the input. *)
Theorem parse_total_deterministic (line : string) :
  ∃ tokens : list string,
    parse line = Ret tokens ∧ ∀ r, parse line = r → r = Ret tokens.
Proof.
  exists (arguments (final line __init__)). split.
  - apply parse_final.
  - intros r <-. apply parse_final.
Qed.

(** *** A closing quote does not end the token *)

Lemma quotes_inv q : mem q quotes = true → q = dquote ∨ q = squote.
Proof.
  unfold quotes; cbn [mem]; unfold eqc.
  destruct (Ascii.eqb_spec q dquote) as [->|_]; [by left|].
  destruct (Ascii.eqb_spec q squote) as [->|_]; [by right|].
  discriminate.
Qed.

Lemma blanks_inv b : mem b blanks = true → b = space ∨ b = newline.
Proof.
  unfold blanks; cbn [mem]; unfold eqc.
  destruct (Ascii.eqb_spec b space) as [->|_]; [by left|].
  destruct (Ascii.eqb_spec b newline) as [->|_]; [by right|].
  discriminate.
Qed.

Lemma eqc_refl c : eqc c c = true.
Proof. apply Ascii.eqb_refl. Qed.

(** What holds of the instance whatever it has been fed: the delimiters are
    those of [__init__], and an open quote is one of the quote characters. *)
Definition well_formed (st : t) : Prop :=
  tokens st = tokens __init__
  ∧ ∀ q, quote st = Some q → mem q quotes = true.

Lemma init_well_formed : well_formed __init__.
Proof. split; [reflexivity | discriminate]. Qed.

Lemma token_step_well_formed symbol st :
  well_formed st → well_formed (token_step symbol st).
Proof.
  intros [Htk Hq]. unfold well_formed, token_step.
  destruct (mem symbol blanks); cbn [tokens quote]; [by split|].
  split; [done|]. destruct (mem symbol quotes) eqn:Hsym; [|done].
  destruct (quote st); [discriminate | by intros q [= <-]].
Qed.

Lemma symbol_step_well_formed symbol st :
  well_formed st → well_formed (symbol_step symbol st).
Proof.
  intros Hwf. unfold symbol_step.
  destruct (quote st) as [q|] eqn:Hq;
    [destruct (eqc symbol q) | destruct (mem symbol (tokens st))];
    try by apply token_step_well_formed.
  - destruct Hwf as [Htk Hquote]. split; [done|]. exact Hquote.
  - destruct Hwf as [Htk Hquote]. split; [done|]. exact Hquote.
Qed.

Lemma symbols_step_well_formed s st :
  well_formed st → well_formed (symbols_step s st).
Proof.
  revert st. induction s as [|symbol s IH]; intros st Hwf; [done|].
  cbn [symbols_step]. by apply IH, symbol_step_well_formed.
Qed.

(** C3, as the code has it: the character that closes an open quote only
    closes it, and leaves the buffer and the tokens as they were; the
    buffer becomes a token at the next space or newline, appended even
    when empty.  A quoted x immediately followed by a character [c] that
    is neither a delimiter nor white space is the single token x[c]. *)
Theorem closing_quote_defers_token (consumed : string) (st : t) (q c : ascii) :
  feed_all consumed __init__ = Ret (tt, st) →
  quote st = Some q →
  mem c (tokens __init__) = false →
  isspace c = false →
  (∃ st1, feed q st = Ret (tt, st1)
          ∧ quote st1 = None
          ∧ buffer st1 = buffer st
          ∧ arguments st1 = arguments st
          ∧ ∀ b, mem b blanks = true →
              ∃ st2, feed b st1 = Ret (tt, st2)
                     ∧ buffer st2 = EmptyString
                     ∧ arguments st2 = arguments st ++ [buffer st])
  ∧ parse (String q (String "x" (String q (String c EmptyString))))
    = Ret [String "x" (String c EmptyString)].
Proof.
  rewrite feed_all_step. intros [= <-] Hopen Hc Hsp.
  destruct (symbols_step_well_formed consumed __init__ init_well_formed)
    as [Htk Hquote].
  pose proof (Hquote q Hopen) as Hq. clear Hquote.
  set (st := symbols_step consumed __init__) in *. split.
  - exists (symbol_step q st). rewrite feed_step.
    assert (Hstep : symbol_step q st
                    = {| tokens := tokens st; curr_token := Some q;
                         prev_token := curr_token st; buffer := buffer st;
                         arguments := arguments st; quote := None |}).
    { unfold symbol_step. rewrite Hopen, eqc_refl. unfold token_step.
      rewrite Hopen, Hq.
      destruct (quotes_inv q Hq) as [-> | ->]; reflexivity. }
    rewrite Hstep. cbn [quote buffer arguments].
    repeat split; try reflexivity.
    intros b Hb. eexists. rewrite feed_step. split; [reflexivity|].
    unfold symbol_step. cbn [quote tokens]. rewrite Htk.
    assert (Hin : mem b (tokens __init__) = true)
      by (destruct (blanks_inv b Hb) as [-> | ->]; reflexivity).
    rewrite Hin. unfold token_step. rewrite Hb.
    cbn [buffer arguments curr_token is_quote]. rewrite Hq.
    split; reflexivity.
  - rewrite parse_final. unfold final, strip.
    assert (Hq' : isspace q = false)
      by (destruct (quotes_inv q Hq) as [-> | ->]; reflexivity).
    cbn [lstrip]. rewrite Hq'. cbn [rstrip]. rewrite Hsp.
    let v := eval vm_compute in (tokens __init__) in
    change (tokens __init__) with v in Hc.
    cbn [symbols_step].
    destruct (quotes_inv q Hq) as [-> | ->];
      match goal with
      | |- context [symbol_step c ?s] =>
          let v := eval vm_compute in s in change s with v
      end;
      unfold symbol_step; cbn [quote tokens]; rewrite Hc;
      vm_compute; reflexivity.
Qed.

Lemma closing_quote_defers_token_witness :
  let st := symbols_step (String dquote "x") __init__ in
  (feed_all (String dquote "x") __init__ = Ret (tt, st)
   ∧ quote st = Some dquote
   ∧ mem "c" (tokens __init__) = false
   ∧ isspace "c" = false)
  ∧ ((∃ st1, feed dquote st = Ret (tt, st1)
             ∧ quote st1 = None
             ∧ buffer st1 = buffer st
             ∧ arguments st1 = arguments st
             ∧ ∀ b, mem b blanks = true →
                 ∃ st2, feed b st1 = Ret (tt, st2)
                        ∧ buffer st2 = EmptyString
                        ∧ arguments st2 = arguments st ++ [buffer st])
     ∧ parse (String dquote (String "x" (String dquote (String "c" EmptyString))))
       = Ret [String "x" (String "c" EmptyString)]).
Proof.
  split; [repeat split; reflexivity|].
  apply (closing_quote_defers_token
           (String dquote "x") (symbols_step (String dquote "x") __init__)
           dquote "c");
    reflexivity.
Defined.

(** C3, as stated, fails: a quoted x followed by c is one token, xc, and
    not the two tokens x and c. *)
Lemma closing_quote_merges :
  parse (String dquote (String "x" (String dquote (String "c" EmptyString))))
  = Ret ["xc"]
  ∧ parse (String dquote (String "x" (String dquote (String "c" EmptyString))))
    ≠ Ret ["x"; "c"].
Proof. split; [vm_compute; reflexivity | vm_compute; discriminate]. Qed.

(** *** One instance called twice *)

(** [parser = ArgumentParser(); parser(s1); parser(s2)] *)
Definition parse_again (s1 s2 : string) : result (list string) :=
  match __call__ s1 __init__ with
  | Ret (_, st1) =>
      match __call__ s2 st1 with
      | Ret (args, _) => Ret args
      | Raise e => Raise e
      end
  | Raise e => Raise e
  end.

(** [st'] is [st] with the tokens [pre] already collected: the two agree
    on what the next steps read. *)
Definition carried (pre : list string) (st st' : t) : Prop :=
  tokens st' = tokens st
  ∧ buffer st' = buffer st
  ∧ quote st' = quote st
  ∧ is_quote (curr_token st') = is_quote (curr_token st)
  ∧ arguments st' = pre ++ arguments st.

Lemma token_step_carried pre symbol st st' :
  carried pre st st' → carried pre (token_step symbol st) (token_step symbol st').
Proof.
  intros (Htk & Hbuf & Hq & Hcur & Hargs). unfold carried, token_step.
  destruct (mem symbol blanks);
    cbn [tokens buffer quote curr_token arguments is_quote];
    rewrite ?Htk, ?Hbuf, ?Hq, ?Hcur, ?Hargs; repeat split; try reflexivity.
  destruct (is_quote (curr_token st) || truthy (buffer st));
    [by rewrite app_assoc | reflexivity].
Qed.

Lemma symbol_step_carried pre symbol st st' :
  carried pre st st' → carried pre (symbol_step symbol st) (symbol_step symbol st').
Proof.
  intros H. pose proof H as (Htk & Hbuf & Hq & Hcur & Hargs).
  assert (Hlit : carried pre (literal_step symbol st) (literal_step symbol st')).
  { unfold carried, literal_step; cbn [tokens buffer quote curr_token arguments].
    rewrite Hbuf. auto. }
  unfold symbol_step. rewrite Hq, Htk.
  destruct (quote st) as [q|].
  - destruct (eqc symbol q); [by apply token_step_carried | exact Hlit].
  - destruct (mem symbol (tokens st)); [by apply token_step_carried | exact Hlit].
Qed.

Lemma symbols_step_carried pre s st st' :
  carried pre st st' → carried pre (symbols_step s st) (symbols_step s st').
Proof.
  revert st st'. induction s as [|symbol s IH]; intros st st' H; [exact H|].
  cbn [symbols_step]. by apply IH, symbol_step_carried.
Qed.

Lemma tokens_token_step symbol st : tokens (token_step symbol st) = tokens st.
Proof. unfold token_step. by destruct (mem symbol blanks). Qed.

Lemma tokens_symbol_step symbol st : tokens (symbol_step symbol st) = tokens st.
Proof.
  unfold symbol_step.
  destruct (quote st) as [q|]; [destruct (eqc symbol q) | destruct (mem _ _)];
    auto using tokens_token_step.
Qed.

Lemma tokens_symbols_step s st : tokens (symbols_step s st) = tokens st.
Proof.
  revert st. induction s as [|symbol s IH]; intros st; [reflexivity|].
  cbn [symbols_step]. by rewrite IH, tokens_symbol_step.
Qed.

(** C9, as the code has it: the state is kept on the instance and set up
    only by [__init__].  When a first call has left no quote open, a
    second call on the same instance returns the tokens of the first call
    followed by the tokens a fresh instance returns; the buffer is empty
    after a call. *)
Theorem reused_instance_appends (s1 s2 : string) (tokens1 : list string) (st1 : t) :
  __call__ s1 __init__ = Ret (tokens1, st1) →
  quote st1 = None →
  buffer st1 = EmptyString
  ∧ ∃ tokens2 st2,
      parse s2 = Ret tokens2
      ∧ __call__ s2 st1 = Ret (tokens1 ++ tokens2, st2).
Proof.
  rewrite call_final. intros [= <- <-] Hq. split; [reflexivity|].
  exists (arguments (final s2 __init__)), (final s2 (final s1 __init__)).
  split; [apply parse_final|]. rewrite call_final. f_equal. f_equal.
  assert (Hc : carried (arguments (final s1 __init__)) __init__ (final s1 __init__)).
  { unfold carried. rewrite Hq. unfold final at 1 2 3.
    rewrite tokens_token_step, tokens_symbols_step.
    repeat split; try reflexivity. cbn [arguments __init__]. by rewrite app_nil_r. }
  apply (symbols_step_carried _ (strip s2)), (token_step_carried _ newline) in Hc.
  apply Hc.
Qed.

Lemma reused_instance_appends_witness :
  (__call__ "a" __init__ = Ret (["a"], final "a" __init__)
   ∧ quote (final "a" __init__) = None)
  ∧ (buffer (final "a" __init__) = EmptyString
     ∧ ∃ tokens2 st2,
         parse "b" = Ret tokens2
         ∧ __call__ "b" (final "a" __init__) = Ret (["a"] ++ tokens2, st2)).
Proof.
  split; [split; reflexivity|].
  apply (reused_instance_appends "a" "b" ["a"] (final "a" __init__)); reflexivity.
Defined.

(** C9, as stated, fails: after a call on a, a call on b returns a and b,
    where a fresh instance returns b alone. *)
Lemma reused_instance_keeps_tokens :
  parse_again "a" "b" = Ret ["a"; "b"]
  ∧ parse "b" = Ret ["b"]
  ∧ parse_again "a" "b" ≠ parse "b".
Proof.
  split; [|split]; vm_compute; [reflexivity | reflexivity | discriminate].
Qed.

End ArgumentParser_properties.

(** ** Ordinals *)

Section Command_properties.

Import Command.

(** The probing loop stops at the first number from [num] upwards that is
    not in the set. *)
Lemma probe_spec (used : gset Z) (num : Z) :
  (probe used num ∉ used)
  ∧ num ≤ probe used num
  ∧ ∀ k, num ≤ k < probe used num → k ∈ used.
Proof.
  funelim (probe used num).
  - destruct H as (Hout & Hle & Hbetween).
    repeat split; [done | lia |].
    intros k Hk. destruct (decide (k = num)) as [-> | Hne]; [done|].
    apply Hbetween. lia.
  - repeat split; [done | lia | intros k Hk; lia].
Qed.

Lemma probe_empty (num : Z) : probe ∅ num = num.
Proof.
  pose proof (probe_spec ∅ num) as (_ & Hle & Hbetween).
  destruct (decide (probe ∅ num = num)) as [|Hne]; [done|].
  exfalso. apply (not_elem_of_empty (C:=gset Z) num), Hbetween. lia.
Qed.

(** No call of [set_number] changes [number_used]. *)
Lemma set_number_keeps_used number cls num cls' :
  set_number number cls = Ret (num, cls') → number_used cls' = number_used cls.
Proof.
  unfold set_number. destruct number as [a|].
  - destruct (int a); [|discriminate]. by intros [= _ <-].
  - by intros [= _ <-].
Qed.

(** C1 fails on the code: two descriptors created one after the other
    with the same explicit ordinal both receive that ordinal, and a
    descriptor that asks for 0 after the first automatic one receives 0
    as well; the set of used ordinals is empty after each creation. *)
Theorem set_number_repeats_ordinal (description : string)
    (command : option string) (z : Z) :
  (∃ first second cls1 cls2,
      __init__ description command (Some (NumInt z)) initial = Ret (first, cls1)
      ∧ __init__ description command (Some (NumInt z)) cls1 = Ret (second, cls2)
      ∧ number first = z ∧ number second = z
      ∧ number_used cls1 = ∅ ∧ number_used cls2 = ∅)
  ∧ (∃ first second cls1 cls2,
      __init__ description command None initial = Ret (first, cls1)
      ∧ __init__ description command (Some (NumInt 0)) cls1 = Ret (second, cls2)
      ∧ number first = 0 ∧ number second = 0
      ∧ number_used cls1 = ∅ ∧ number_used cls2 = ∅).
Proof.
  split.
  - exists {| description := description; command := command; number := z |},
           {| description := description; command := command; number := z |},
           initial, initial.
    unfold __init__, set_number, int. cbn [number_used initial number].
    rewrite probe_empty. done.
  - exists {| description := description; command := command; number := 0 |},
           {| description := description; command := command; number := 0 |},
           {| number_free := 1; number_used := ∅ |},
           {| number_free := 1; number_used := ∅ |}.
    unfold __init__, set_number, int.
    cbn [number_used number_free initial number].
    rewrite probe_empty. done.
Qed.

End Command_properties.

(** ** Arity and keyword arguments *)

Section Commandlet_properties.

Import Commandlet.

Lemma collect_arguments_take argcount num varnames :
  collect_arguments argcount num varnames = take (argcount - num) varnames.
Proof.
  revert num. induction varnames as [|arg rest IH]; intros num;
    cbn [collect_arguments].
  - by rewrite take_nil.
  - rewrite IH. destruct (decide (num < argcount)%nat) as [Hlt|Hge].
    + replace (argcount - num)%nat with (S (argcount - S num)) by lia. done.
    + replace (argcount - num)%nat with 0%nat by lia.
      replace (argcount - S num)%nat with 0%nat by lia. done.
Qed.

(** The number of default values of a function. *)
Definition defaults_count (f : function) : Z :=
  match __defaults__ f with
  | None => 0
  | Some defaults => len defaults
  end.


(** C2, as the code has it: the maximum arity is the number of declared
    parameters, the receiver counted; the minimum arity is the maximum
    less the number of default values, and is at most the maximum. *)
Theorem arity_counts_receiver (description command : string) (number : Z)
    (f : function) (cls : widths) :
  (co_argcount f ≤ length (co_varnames f))%nat →
  let c := (__init__ description command number f cls).1 in
  arguments_max c = Z.of_nat (co_argcount f)
  ∧ arguments_min c = arguments_max c - defaults_count f
  ∧ arguments_min c ≤ arguments_max c.
Proof.
  intros Hwf c.
  assert (Hmax : arguments_max c = Z.of_nat (co_argcount f)).
  { subst c. cbn [__init__ fst attributes arguments_max].
    rewrite collect_arguments_take, Nat.sub_0_r. unfold len.
    rewrite length_take. lia. }
  assert (Hmin : arguments_min c = arguments_max c - defaults_count f).
  { subst c. cbn [__init__ fst attributes arguments_min arguments_max].
    unfold defaults_count. destruct (__defaults__ f); lia. }
  repeat split; [done | done |].
  rewrite Hmin. unfold defaults_count, len. destruct (__defaults__ f); lia.
Qed.




End Commandlet_properties.

(** ** The namespace and the main loop *)

Section Mode_properties.

Import Commandlet Mode.

Abbreviation name_of := (λ c : Commandlet.t, command c).

(** *** Lookup *)



Lemma lookup_in_app {A} (f : A → string) (l1 l2 : list A) (text : string) :
  lookup_in f (l1 ++ l2) text
  = match lookup_in f l1 text with
    | Ret x => Ret x
    | Raise _ => lookup_in f l2 text
    end.
Proof.
  induction l1 as [|x l1 IH]; cbn [app lookup_in]; [done|].
  by destruct (String.eqb (f x) text).
Qed.

Lemma lookup_in_raise {A} (f : A → string) (l : list A) (text : string) e :
  lookup_in f l text = Raise e → Forall (λ x, f x ≠ text) l.
Proof.
  induction l as [|x l IH]; cbn [lookup_in]; [by constructor|].
  destruct (String.eqb_spec (f x) text); [discriminate|].
  intros H. constructor; [done | by apply IH].
Qed.




(** *** The namespace *)

(** The commandlets among the attributes of one class, in order. *)
Fixpoint own_commandlets (items : list (string * attribute)) : list Commandlet.t :=
  match items with
  | [] => []
  | (_, Cmdlet value) :: rest => value :: own_commandlets rest
  | (_, Other) :: rest => own_commandlets rest
  end.

(** The walk: the commandlets of the class, then those of each base in
    turn with its own bases, duplicates included. *)
Fixpoint walk (cls : class) : list Commandlet.t :=
  match cls with
  | Class items bases =>
      own_commandlets items
      ++ (fix over_bases (bases : list class) : list Commandlet.t :=
            match bases with
            | [] => []
            | base :: rest => walk base ++ over_bases rest
            end) bases
  end.

(** Appending each commandlet of a list unless an equal one is there. *)
Fixpoint add_all (found namespace : list Commandlet.t) : list Commandlet.t :=
  match found with
  | [] => namespace
  | value :: rest =>
      add_all rest (if not_in value namespace then namespace ++ [value]
                    else namespace)
  end.

Lemma add_all_app found1 found2 namespace :
  add_all (found1 ++ found2) namespace = add_all found2 (add_all found1 namespace).
Proof.
  revert namespace. induction found1 as [|value rest IH]; intros namespace;
    cbn [app add_all]; [done | apply IH].
Qed.

Lemma collect_items_add_all items namespace :
  collect_items items namespace = add_all (own_commandlets items) namespace.
Proof.
  revert namespace.
  induction items as [|[key [|value]] rest IH]; intros namespace;
    cbn [collect_items own_commandlets add_all]; [done | apply IH |].
  destruct (not_in value namespace); apply IH.
Qed.

Lemma class_induction (P : class → Prop) :
  (∀ items bases, Forall P bases → P (Class items bases)) → ∀ cls, P cls.
Proof.
  intros step. fix IH 1. intros [items bases]. apply step.
  induction bases as [|base rest IHrest]; constructor; [apply IH | exact IHrest].
Qed.

Lemma get_commandlets_walk cls namespace :
  get_commandlets cls namespace = add_all (walk cls) namespace.
Proof.
  revert namespace. induction cls as [items bases IH] using class_induction.
  intros namespace. cbn [get_commandlets walk].
  rewrite add_all_app, collect_items_add_all.
  generalize (add_all (own_commandlets items) namespace). clear namespace.
  induction IH as [|base rest Hbase _ IHrest]; intros namespace; [done|].
  rewrite add_all_app, Hbase. apply IHrest.
Qed.

Lemma not_in_true value namespace :
  not_in value namespace = true ↔ command value ∉ map name_of namespace.
Proof.
  unfold not_in. induction namespace as [|x namespace IH]; cbn [existsb map negb].
  - split; [intros _; apply not_elem_of_nil | done].
  - rewrite not_elem_of_cons, <- IH. unfold __eq__.
    destruct (String.eqb_spec (command x) (command value)) as [Heq|Hne];
      cbn [orb negb].
    + split; [discriminate | intros [? _]; congruence].
    + split; [intros ?; split; [congruence | done] | by intros [_ ?]].
Qed.

Lemma add_all_names found namespace (text : string) :
  text ∈ map name_of (add_all found namespace)
  ↔ text ∈ map name_of namespace ∨ text ∈ map name_of found.
Proof.
  revert namespace. induction found as [|value rest IH]; intros namespace;
    cbn [add_all map].
  - rewrite elem_of_nil. tauto.
  - rewrite IH, elem_of_cons. destruct (not_in value namespace) eqn:Hin.
    + rewrite map_app, elem_of_app. cbn [map].
      rewrite list_elem_of_singleton. tauto.
    + assert (Hthere : command value ∈ map name_of namespace).
      { destruct (decide (command value ∈ map name_of namespace)) as [|Hout];
          [done|]. apply not_in_true in Hout. congruence. }
      split; [tauto|]. intros [? | [-> | ?]]; auto.
Qed.

Lemma add_all_NoDup found namespace :
  NoDup (map name_of namespace) → NoDup (map name_of (add_all found namespace)).
Proof.
  revert namespace. induction found as [|value rest IH]; intros namespace Hnd;
    cbn [add_all]; [done|]. apply IH.
  destruct (not_in value namespace) eqn:Hin; [|done].
  rewrite map_app. cbn [map]. apply NoDup_app. split; [done|]. split.
  - intros text Htext ->%list_elem_of_singleton. by apply not_in_true in Hin.
  - apply NoDup_singleton.
Qed.

Lemma add_all_lookup found namespace (text : string) :
  lookup_in name_of (add_all found namespace) text
  = lookup_in name_of (namespace ++ found) text.
Proof.
  revert namespace. induction found as [|value rest IH]; intros namespace;
    cbn [add_all]; [by rewrite app_nil_r|].
  rewrite IH. replace (namespace ++ value :: rest)
    with ((namespace ++ [value]) ++ rest) by by rewrite <- app_assoc.
  destruct (not_in value namespace) eqn:Hin; [done|].
  rewrite !lookup_in_app. destruct (lookup_in name_of namespace text) eqn:Hns;
    [done|]. cbn [lookup_in].
  destruct (String.eqb_spec (command value) text) as [Heq|]; [|done].
  exfalso. apply lookup_in_raise in Hns.
  assert (Hout : command value ∉ map name_of namespace).
  { rewrite list_elem_of_fmap. intros (x & Hx & Hel).
    rewrite Forall_forall in Hns. apply (Hns x Hel). congruence. }
  apply not_in_true in Hout. congruence.
Qed.

(** C7: the namespace holds at most one commandlet per command name; the
    names in it are the names met in the walk over the class and its
    ancestors; and for each name the entry is the first commandlet of
    that name met in the walk. *)
Theorem namespace_unique_first_found (cls : class) :
  NoDup (map name_of (build_namespace cls))
  ∧ (∀ text : string,
       text ∈ map name_of (build_namespace cls) ↔ text ∈ map name_of (walk cls))
  ∧ (∀ text : string,
       lookup_command (build_namespace cls) text = lookup_in name_of (walk cls) text).
Proof.
  unfold build_namespace. rewrite get_commandlets_walk. repeat split.
  - apply add_all_NoDup. cbn [map]. apply NoDup_nil_2.
  - rewrite add_all_names. cbn [map]. rewrite elem_of_nil. tauto.
  - intros ?. apply add_all_names. by right.
  - intros text. unfold lookup_command. by rewrite add_all_lookup.
Qed.

(** *** Empty lines *)

Fixpoint all_space (s : string) : bool :=
  match s with
  | EmptyString => true
  | String c s' => isspace c && all_space s'
  end.

Lemma strip_all_space s : all_space s = true → strip s = EmptyString.
Proof.
  unfold strip. induction s as [|c s IH]; cbn [all_space lstrip]; [done|].
  intros [Hc Hs]%andb_true_iff. rewrite Hc. by apply IH.
Qed.


(** *** The built-in commands *)

(** A mode instance without attributes of its own, once the module is
    imported. *)
Definition fresh_runtime : runtime :=
  {| stdout := []; name := None; context := None; namespace := [];
     class_widths := exit_commandlet.2 |}.

Lemma default_namespace :
  build_namespace Mode = [help_commandlet.1; exit_commandlet.1].
Proof. reflexivity. Qed.



Lemma arity_counts_receiver_witness :
  (co_argcount help_function ≤ length (co_varnames help_function))%nat
  ∧ (arguments_max help_commandlet.1 = Z.of_nat (co_argcount help_function)
     ∧ arguments_min help_commandlet.1
       = arguments_max help_commandlet.1 - defaults_count help_function
     ∧ arguments_min help_commandlet.1 ≤ arguments_max help_commandlet.1).
Proof.
  assert (Hwf : (co_argcount help_function ≤ length (co_varnames help_function))%nat)
    by (cbn; lia).
  split; [exact Hwf|].
  exact (arity_counts_receiver "Print this message" "help" 998 help_function
                               Commandlet.initial Hwf).
Defined.

(** C2, as stated, fails: [exit] declares the receiver alone, so its
    parameter count less one is 0, and its maximum arity is 1. *)
Lemma maximum_arity_counts_receiver :
  co_varnames exit_function = ["self"]
  ∧ arguments_max exit_commandlet.1 = 1
  ∧ arguments_max exit_commandlet.1 ≠ Z.of_nat (co_argcount exit_function) - 1.
Proof. split; [|split]; vm_compute; [reflexivity | reflexivity | discriminate]. Qed.



End Mode_properties.

(** * Further properties *)

(** ** Strings *)

Section String_facts.

Lemma append_nil_l (t : string) : EmptyString +:+ t = t.
Proof. reflexivity. Qed.

Lemma append_cons_l (c : ascii) (s t : string) :
  String c s +:+ t = String c (s +:+ t).
Proof. reflexivity. Qed.

Lemma append_empty_r (s : string) : s +:+ EmptyString = s.
Proof.
  induction s as [|c s IH]; [done|]. by rewrite append_cons_l, IH.
Qed.

Lemma append_snoc (b : string) (c : ascii) (t : string) :
  (b +:+ String c EmptyString) +:+ t = b +:+ String c t.
Proof.
  induction b as [|d b IH]; [done|]. by rewrite !append_cons_l, IH.
Qed.

Lemma append_assoc (a b c : string) : (a +:+ b) +:+ c = a +:+ (b +:+ c).
Proof.
  induction a as [|d a IH]; [done|]. by rewrite !append_cons_l, IH.
Qed.

Lemma length_append (a b : string) :
  String.length (a +:+ b) = (String.length a + String.length b)%nat.
Proof.
  induction a as [|d a IH]; [done|].
  rewrite append_cons_l. cbn [String.length]. by rewrite IH.
Qed.

Lemma mem_append (c : ascii) (a b : string) :
  mem c (a +:+ b) = mem c a || mem c b.
Proof.
  induction a as [|d a IH]; [done|].
  rewrite append_cons_l. cbn [mem]. by rewrite IH, orb_assoc.
Qed.

Lemma eqc_sym (a b : ascii) : eqc a b = eqc b a.
Proof. apply Ascii.eqb_sym. Qed.

Lemma lstrip_all_space (pre s : string) :
  all_space pre = true → lstrip (pre +:+ s) = lstrip s.
Proof.
  induction pre as [|c pre IH]; [done|]. cbn [all_space].
  intros [Hc Hpre]%andb_true_iff.
  rewrite append_cons_l. cbn [lstrip]. rewrite Hc. by apply IH.
Qed.

Lemma rstrip_all_space (s post : string) :
  all_space post = true → rstrip (s +:+ post) = rstrip s.
Proof.
  intros Hpost. induction s as [|c s IH].
  - rewrite append_nil_l. induction post as [|c post IH]; [done|].
    cbn [all_space rstrip] in *.
    apply andb_true_iff in Hpost as [Hc Hpost]. by rewrite (IH Hpost), Hc.
  - rewrite append_cons_l. cbn [rstrip]. by rewrite IH.
Qed.

Lemma lstrip_empty_all_space (s : string) : lstrip s = EmptyString → all_space s = true.
Proof.
  induction s as [|c s IH]; cbn [lstrip all_space]; [done|].
  destruct (isspace c); [exact IH | discriminate].
Qed.

Lemma all_space_append (a b : string) :
  all_space a = true → all_space b = true → all_space (a +:+ b) = true.
Proof.
  intros Ha Hb. induction a as [|c a IH]; [done|].
  rewrite append_cons_l. cbn [all_space] in *.
  apply andb_true_iff in Ha as [Hc Ha]. by rewrite Hc, IH.
Qed.

Lemma lstrip_append (s post : string) :
  lstrip s ≠ EmptyString → lstrip (s +:+ post) = lstrip s +:+ post.
Proof.
  induction s as [|c s IH]; [done|].
  rewrite append_cons_l. cbn [lstrip].
  destruct (isspace c); [exact IH | by rewrite append_cons_l].
Qed.

(** White space around a text does not change what [strip] makes of it. *)
Lemma strip_padding (pre s post : string) :
  all_space pre = true → all_space post = true →
  strip (pre +:+ s +:+ post) = strip s.
Proof.
  intros Hpre Hpost. unfold strip. rewrite (lstrip_all_space pre _ Hpre).
  destruct (lstrip s) as [|c r] eqn:Hs.
  - assert (Hall : all_space (s +:+ post) = true)
      by by apply all_space_append; [apply lstrip_empty_all_space|].
    pose proof (strip_all_space _ Hall) as Hstrip. unfold strip in Hstrip.
    by rewrite Hstrip.
  - rewrite lstrip_append by by rewrite Hs. rewrite Hs.
    by apply rstrip_all_space.
Qed.

Lemma rstrip_nonspace_last (s : string) (c : ascii) :
  isspace c = false →
  rstrip (s +:+ String c EmptyString) = s +:+ String c EmptyString.
Proof.
  intros Hc. induction s as [|d s IH].
  - rewrite append_nil_l. cbn [rstrip]. by rewrite Hc.
  - rewrite append_cons_l. cbn [rstrip]. rewrite IH. by destruct s.
Qed.

Lemma rstrip_cons_nonspace (c : ascii) (s : string) :
  isspace c = false → rstrip (String c s) = String c (rstrip s).
Proof. intros Hc. cbn [rstrip]. destruct (rstrip s); [by rewrite Hc | done]. Qed.

Lemma mem_rstrip (c : ascii) (s : string) :
  mem c s = false → mem c (rstrip s) = false.
Proof.
  induction s as [|d s IH]; cbn [mem rstrip]; [done|].
  intros [Hd Hs]%orb_false_iff. specialize (IH Hs).
  destruct (rstrip s) as [|e r]; [|by cbn [mem] in *; rewrite Hd].
  destruct (isspace d); cbn [mem]; [done | by rewrite Hd].
Qed.

Lemma mem_lstrip (c : ascii) (s : string) :
  mem c s = false → mem c (lstrip s) = false.
Proof.
  induction s as [|d s IH]; cbn [mem lstrip]; [done|].
  intros [Hd Hs]%orb_false_iff.
  destruct (isspace d); [by apply IH | by cbn [mem]; rewrite Hd].
Qed.

Lemma mem_strip (c : ascii) (s : string) :
  mem c s = false → mem c (strip s) = false.
Proof. intros H. by apply mem_rstrip, mem_lstrip. Qed.

End String_facts.

(** ** The tokenizer on quoted and on plain text *)

Section ArgumentParser_texts.

Import ArgumentParser.

Definition set_buffer (b : string) (st : t) : t :=
  {| tokens := tokens st; curr_token := curr_token st;
     prev_token := prev_token st; buffer := b;
     arguments := arguments st; quote := quote st |}.

Lemma set_buffer_same st : set_buffer (buffer st) st = st.
Proof. by destruct st. Qed.

Lemma symbols_step_app s1 s2 st :
  symbols_step (s1 +:+ s2) st = symbols_step s2 (symbols_step s1 st).
Proof.
  revert st. induction s1 as [|c s1 IH]; intros st; [done|].
  rewrite append_cons_l. cbn [symbols_step]. apply IH.
Qed.

(** Inside a quote, text without the quote character goes to the buffer. *)
Lemma quoted_text_step (text : string) (st : t) (q : ascii) :
  quote st = Some q → mem q text = false →
  symbols_step text st = set_buffer (buffer st +:+ text) st.
Proof.
  revert st. induction text as [|c text IH]; intros st Hq Hmem.
  - by rewrite append_empty_r, set_buffer_same.
  - cbn [mem] in Hmem. apply orb_false_iff in Hmem as [Hc Hmem].
    cbn [symbols_step].
    assert (Hstep : symbol_step c st = literal_step c st).
    { unfold symbol_step. by rewrite Hq, eqc_sym, Hc. }
    rewrite Hstep, IH; [|exact Hq | exact Hmem].
    unfold literal_step, set_buffer; cbn [tokens curr_token prev_token buffer arguments quote].
    by rewrite append_snoc.
Qed.

Lemma quote_not_space q : mem q quotes = true → isspace q = false.
Proof. intros Hq. by destruct (quotes_inv q Hq) as [-> | ->]. Qed.

Lemma open_quote q :
  mem q quotes = true →
  symbol_step q __init__
  = {| tokens := tokens __init__; curr_token := Some q; prev_token := None;
       buffer := EmptyString; arguments := []; quote := Some q |}.
Proof. intros Hq. by destruct (quotes_inv q Hq) as [-> | ->]. Qed.

(** X1: a text between two quote characters of one style, with no such
    character inside, is one token, whatever else it holds: spaces, quote
    characters of the other style, or nothing at all. *)
Theorem quoted_text_is_one_token (q : ascii) (text : string) :
  mem q quotes = true →
  mem q text = false →
  parse (String q (text +:+ String q EmptyString)) = Ret [text].
Proof.
  intros Hq Hmem. rewrite parse_final. unfold final, strip.
  cbn [lstrip]. rewrite (quote_not_space q Hq).
  rewrite <- append_cons_l, (rstrip_nonspace_last _ q (quote_not_space q Hq)).
  rewrite symbols_step_app. cbn [symbols_step].
  rewrite (open_quote q Hq), (quoted_text_step text _ q); [|done | done].
  unfold set_buffer; cbn [tokens curr_token prev_token buffer arguments quote].
  rewrite append_nil_l. generalize text. intros b.
  destruct (quotes_inv q Hq) as [-> | ->]; reflexivity.
Qed.

Lemma quoted_text_is_one_token_witness :
  (mem dquote quotes = true ∧ mem dquote "it's here" = false)
  ∧ parse (String dquote ("it's here" +:+ String dquote EmptyString))
    = Ret ["it's here"].
Proof.
  split; [split; reflexivity|].
  apply (quoted_text_is_one_token dquote "it's here"); reflexivity.
Defined.

(** X2: a quote that is never closed runs to the end of the line: the text
    after it, less the white space at its end, is one token (the empty
    token when nothing follows the quote). *)
Theorem open_quote_runs_to_end (q : ascii) (text : string) :
  mem q quotes = true →
  mem q text = false →
  parse (String q text) = Ret [rstrip text].
Proof.
  intros Hq Hmem. rewrite parse_final. unfold final, strip.
  cbn [lstrip]. rewrite (quote_not_space q Hq).
  rewrite (rstrip_cons_nonspace q text (quote_not_space q Hq)).
  cbn [symbols_step].
  rewrite (open_quote q Hq), (quoted_text_step (rstrip text) _ q);
    [|done | by apply mem_rstrip].
  unfold set_buffer; cbn [tokens curr_token prev_token buffer arguments quote].
  rewrite append_nil_l. generalize (rstrip text). intros b.
  destruct (quotes_inv q Hq) as [-> | ->]; reflexivity.
Qed.

Lemma open_quote_runs_to_end_witness :
  (mem squote quotes = true ∧ mem squote "a b  " = false)
  ∧ parse (String squote "a b  ") = Ret ["a b"].
Proof.
  split; [split; reflexivity|].
  apply (open_quote_runs_to_end squote "a b  "); reflexivity.
Defined.

(** *** Plain words *)

(** No character of the text is white space or a quote character. *)
Fixpoint plain (s : string) : bool :=
  match s with
  | EmptyString => true
  | String c s' => negb (isspace c) && negb (mem c quotes) && plain s'
  end.

Definition word (w : string) : Prop := w ≠ EmptyString ∧ plain w = true.

Lemma tokens_cases c :
  mem c (tokens __init__) = mem c blanks || mem c quotes.
Proof.
  cbn [mem tokens __init__ blanks quotes].
  by destruct (eqc c space), (eqc c dquote), (eqc c squote), (eqc c newline).
Qed.

Lemma blank_is_space c : mem c blanks = true → isspace c = true.
Proof. intros Hc. by destruct (blanks_inv c Hc) as [-> | ->]. Qed.

Lemma plain_not_delimiter c :
  isspace c = false → mem c quotes = false → mem c (tokens __init__) = false.
Proof.
  intros Hsp Hq. rewrite tokens_cases, Hq, orb_false_r.
  destruct (mem c blanks) eqn:Hb; [|done].
  apply blank_is_space in Hb. congruence.
Qed.

Lemma plain_text_step (w : string) (st : t) :
  quote st = None → tokens st = tokens __init__ → plain w = true →
  symbols_step w st = set_buffer (buffer st +:+ w) st.
Proof.
  revert st. induction w as [|c w IH]; intros st Hq Htk Hw.
  - by rewrite append_empty_r, set_buffer_same.
  - cbn [plain] in Hw. apply andb_true_iff in Hw as [Hc Hw].
    apply andb_true_iff in Hc as [Hsp Hnq].
    apply negb_true_iff in Hsp, Hnq. cbn [symbols_step].
    assert (Hstep : symbol_step c st = literal_step c st).
    { unfold symbol_step. by rewrite Hq, Htk, plain_not_delimiter. }
    rewrite Hstep, IH; [|exact Hq | exact Htk | exact Hw].
    unfold literal_step, set_buffer; cbn [tokens curr_token prev_token buffer arguments quote].
    by rewrite append_snoc.
Qed.

Lemma rstrip_plain (w : string) : plain w = true → rstrip w = w.
Proof.
  induction w as [|c w IH]; [done|]. cbn [plain].
  intros [[Hsp _]%andb_true_iff Hw]%andb_true_iff. apply negb_true_iff in Hsp.
  by rewrite rstrip_cons_nonspace, IH.
Qed.

Lemma rstrip_append_kept (a r : string) :
  rstrip r = r → r ≠ EmptyString → rstrip (a +:+ r) = a +:+ r.
Proof.
  intros Hr Hne. induction a as [|c a IH]; [done|].
  rewrite append_cons_l. cbn [rstrip]. rewrite IH.
  destruct (a +:+ r) eqn:Har; [|done].
  destruct a; [by rewrite append_nil_l in Har | by rewrite append_cons_l in Har].
Qed.

Lemma join_words_kept (ws : list string) :
  Forall word ws → ws ≠ [] →
  join " " ws ≠ EmptyString
  ∧ lstrip (join " " ws) = join " " ws
  ∧ rstrip (join " " ws) = join " " ws.
Proof.
  induction 1 as [|w ws [Hne Hw] Hws IH]; [done|]. intros _.
  destruct w as [|c w]; [done|].
  assert (Hsp : isspace c = false).
  { cbn [plain] in Hw. apply andb_true_iff in Hw as [[Hsp _]%andb_true_iff _].
    by apply negb_true_iff. }
  destruct ws as [|w2 ws].
  - cbn [join]. repeat split; [done | by cbn [lstrip]; rewrite Hsp |].
    by apply rstrip_plain.
  - destruct IH as (Hjne & _ & Hjr); [done|].
    assert (Hjoin : join " " (String c w :: w2 :: ws)
                    = String c w +:+ " " +:+ join " " (w2 :: ws)) by done.
    rewrite Hjoin. repeat split.
    + by rewrite append_cons_l.
    + rewrite append_cons_l. by cbn [lstrip]; rewrite Hsp.
    + apply rstrip_append_kept; [|by rewrite append_cons_l].
      apply rstrip_append_kept; done.
Qed.

Lemma words_step (ws : list string) (st : t) :
  Forall word ws → ws ≠ [] →
  quote st = None → tokens st = tokens __init__ →
  buffer st = EmptyString → is_quote (curr_token st) = false →
  arguments (token_step newline (symbols_step (join " " ws) st))
  = arguments st ++ ws.
Proof.
  intros Hws. revert st.
  induction Hws as [|w ws [Hne Hw] Hws IH]; [done|].
  intros st _ Hq Htk Hbuf Hcur. destruct ws as [|w2 ws].
  - cbn [join]. rewrite plain_text_step by done. rewrite Hbuf, append_nil_l.
    unfold token_step, set_buffer.
    change (mem newline blanks) with true.
    cbn [tokens curr_token prev_token buffer arguments quote].
    rewrite Hcur. by destruct w.
  - assert (Hjoin : join " " (w :: w2 :: ws)
                    = w +:+ " " +:+ join " " (w2 :: ws)) by done.
    rewrite Hjoin, !symbols_step_app, (plain_text_step w st) by done.
    rewrite Hbuf, append_nil_l. cbn [symbols_step].
    assert (Hspace : symbol_step " "%char (set_buffer w st)
                     = {| tokens := tokens st; curr_token := Some space;
                          prev_token := curr_token st; buffer := EmptyString;
                          arguments := arguments st ++ [w]; quote := None |}).
    { unfold symbol_step, set_buffer; cbn [tokens curr_token prev_token buffer arguments quote].
      rewrite Hq, Htk. change (mem " "%char (tokens __init__)) with true.
      unfold token_step. change (mem " "%char blanks) with true.
      cbn [tokens curr_token prev_token buffer arguments quote].
      rewrite Hcur. by destruct w. }
    rewrite Hspace, IH; [|done..].
    cbn [arguments]. by rewrite <- app_assoc.
Qed.

(** X3: words that are not empty and hold no white space and no quote
    character, joined by single spaces, parse back to the same words. *)
Theorem joined_words_parse_back (ws : list string) :
  Forall word ws → parse (join " " ws) = Ret ws.
Proof.
  intros Hws. rewrite parse_final. destruct ws as [|w ws]; [done|].
  unfold final, strip.
  destruct (join_words_kept (w :: ws) Hws) as (_ & Hl & Hr); [done|].
  rewrite Hl, Hr. by rewrite words_step.
Qed.

Lemma joined_words_parse_back_witness :
  Forall word ["help"; "exit"; "x=1"]
  ∧ parse (join " " ["help"; "exit"; "x=1"]) = Ret ["help"; "exit"; "x=1"].
Proof.
  assert (Hws : Forall word ["help"; "exit"; "x=1"])
    by (repeat constructor; discriminate).
  split; [exact Hws|]. exact (joined_words_parse_back _ Hws).
Defined.

(** *** Lines without quotes *)

Fixpoint no_delimiter (s : string) : bool :=
  match s with
  | EmptyString => true
  | String c s' => negb (mem c (tokens __init__)) && no_delimiter s'
  end.

Definition clean_token (s : string) : Prop :=
  s ≠ EmptyString ∧ no_delimiter s = true.

Definition unquoted (st : t) : Prop :=
  quote st = None
  ∧ tokens st = tokens __init__
  ∧ is_quote (curr_token st) = false
  ∧ no_delimiter (buffer st) = true
  ∧ Forall clean_token (arguments st).

Lemma no_delimiter_snoc b c :
  no_delimiter b = true → mem c (tokens __init__) = false →
  no_delimiter (b +:+ String c EmptyString) = true.
Proof.
  intros Hb Hc. induction b as [|d b IH].
  - rewrite append_nil_l. cbn [no_delimiter]. by rewrite Hc.
  - rewrite append_cons_l. cbn [no_delimiter] in *.
    apply andb_true_iff in Hb as [Hd Hb]. by rewrite Hd, IH.
Qed.

Lemma token_step_unquoted b st :
  mem b blanks = true → unquoted st → unquoted (token_step b st).
Proof.
  intros Hb (Hq & Htk & Hcur & Hbuf & Hargs). unfold unquoted, token_step.
  rewrite Hb. cbn [tokens curr_token prev_token buffer arguments quote is_quote].
  repeat split; try done.
  - destruct (blanks_inv b Hb) as [-> | ->]; reflexivity.
  - rewrite Hcur. cbn [orb]. destruct (buffer st) eqn:Hbuffer; [done|].
    cbn [truthy]. apply Forall_app. split; [done|].
    repeat constructor; [done | exact Hbuf].
Qed.

Lemma symbol_step_unquoted c st :
  mem c quotes = false → unquoted st → unquoted (symbol_step c st).
Proof.
  intros Hc Hst. pose proof Hst as (Hq & Htk & Hcur & Hbuf & Hargs).
  unfold symbol_step. rewrite Hq, Htk.
  destruct (mem c (tokens __init__)) eqn:Hdelim.
  - apply token_step_unquoted; [|done].
    by rewrite tokens_cases, Hc, orb_false_r in Hdelim.
  - unfold unquoted, literal_step.
    cbn [tokens curr_token prev_token buffer arguments quote].
    repeat split; try done. by apply no_delimiter_snoc.
Qed.

Lemma symbols_step_unquoted s st :
  mem dquote s = false → mem squote s = false →
  unquoted st → unquoted (symbols_step s st).
Proof.
  revert st. induction s as [|c s IH]; intros st Hd Hs Hst; [done|].
  cbn [mem] in Hd, Hs.
  apply orb_false_iff in Hd as [Hcd Hd]. apply orb_false_iff in Hs as [Hcs Hs].
  cbn [symbols_step]. apply IH; [done | done |].
  apply symbol_step_unquoted; [|done].
  cbn [mem quotes]. by rewrite (eqc_sym c dquote), (eqc_sym c squote), Hcd, Hcs.
Qed.

(** X4: a line without quote characters gives no empty token, and no
    token of it holds a space, a newline or a quote character. *)
Theorem unquoted_line_has_clean_tokens (line : string) :
  mem dquote line = false →
  mem squote line = false →
  ∃ tokens : list string, parse line = Ret tokens ∧ Forall clean_token tokens.
Proof.
  intros Hd Hs. exists (arguments (final line __init__)).
  split; [apply parse_final|]. unfold final.
  assert (Hinit : unquoted __init__) by (repeat split; done).
  apply (symbols_step_unquoted (strip line)) in Hinit; [|by apply mem_strip..].
  apply (token_step_unquoted newline) in Hinit; [|done].
  apply Hinit.
Qed.

Lemma unquoted_line_has_clean_tokens_witness :
  (mem dquote "  a   b " = false ∧ mem squote "  a   b " = false)
  ∧ ∃ tokens : list string,
      parse "  a   b " = Ret tokens ∧ Forall clean_token tokens.
Proof.
  split; [split; reflexivity|].
  apply (unquoted_line_has_clean_tokens "  a   b "); reflexivity.
Defined.

(** *** White space around a line, and calls on any instance *)

(** X5: white space before and after a line does not change its tokens. *)
Theorem padding_is_ignored (pre line post : string) :
  all_space pre = true →
  all_space post = true →
  parse (pre +:+ line +:+ post) = parse line.
Proof.
  intros Hpre Hpost. rewrite !parse_final. unfold final.
  by rewrite strip_padding.
Qed.

Lemma padding_is_ignored_witness :
  (all_space (String tab " ") = true ∧ all_space "  " = true)
  ∧ parse (String tab " " +:+ "a b" +:+ "  ") = parse "a b".
Proof.
  split; [split; reflexivity|].
  apply (padding_is_ignored (String tab " ") "a b" "  "); reflexivity.
Defined.

Lemma token_step_arguments symbol st :
  arguments st `prefix_of` arguments (token_step symbol st).
Proof.
  unfold token_step. destruct (mem symbol blanks); cbn [arguments]; [|done].
  destruct (is_quote (curr_token st) || truthy (buffer st)); [|done].
  by apply prefix_app_r.
Qed.

Lemma symbol_step_arguments symbol st :
  arguments st `prefix_of` arguments (symbol_step symbol st).
Proof.
  unfold symbol_step.
  destruct (quote st) as [q|]; [destruct (eqc symbol q) | destruct (mem _ _)];
    try apply token_step_arguments; done.
Qed.

Lemma symbols_step_arguments s st :
  arguments st `prefix_of` arguments (symbols_step s st).
Proof.
  revert st. induction s as [|c s IH]; intros st; [done|].
  cbn [symbols_step]. etrans; [apply symbol_step_arguments | apply IH].
Qed.

(** X6: a call on an instance in any state raises nothing; it returns the
    tokens the instance held before the call followed by the new ones, and
    leaves the buffer empty. *)
Theorem call_keeps_earlier_tokens (argument_string : string) (st : t) :
  ∃ tokens st',
    __call__ argument_string st = Ret (tokens, st')
    ∧ arguments st `prefix_of` tokens
    ∧ arguments st' = tokens
    ∧ buffer st' = EmptyString.
Proof.
  exists (arguments (final argument_string st)), (final argument_string st).
  split; [apply call_final|]. repeat split.
  unfold final.
  etrans; [apply symbols_step_arguments | apply token_step_arguments].
Qed.

End ArgumentParser_texts.

(** ** Ordinals: the probing loop and the automatic counter *)

Section Command_numbers.

Import Command.

(** X7: whatever the set of used ordinals, [set_number] returns: an
    explicit request gets the least ordinal from the requested one upwards
    that is not in the set, an automatic one the least such ordinal from
    the counter upwards, and the counter moves on by one. *)
Theorem set_number_skips_used (cls : registry) (z : Z) :
  (∃ n, set_number (Some (NumInt z)) cls = Ret (n, cls)
        ∧ (n ∉ number_used cls)
        ∧ z ≤ n
        ∧ ∀ k, z ≤ k < n → k ∈ number_used cls)
  ∧ (∃ n, set_number None cls
          = Ret (n, {| number_free := number_free cls + 1;
                       number_used := number_used cls |})
          ∧ (n ∉ number_used cls)
          ∧ number_free cls ≤ n
          ∧ ∀ k, number_free cls ≤ k < n → k ∈ number_used cls).
Proof.
  split.
  - exists (probe (number_used cls) z). split; [done|]. apply probe_spec.
  - exists (probe (number_used cls) (number_free cls)). split; [done|].
    apply probe_spec.
Qed.

(** Descriptors created one after the other: the ordinals they get. *)
Fixpoint set_numbers (requests : list (option number_arg)) (cls : registry)
  : result (list Z * registry) :=
  match requests with
  | [] => Ret ([], cls)
  | number :: rest =>
      match set_number number cls with
      | Ret (num, cls') =>
          match set_numbers rest cls' with
          | Ret (nums, cls'') => Ret (num :: nums, cls'')
          | Raise e => Raise e
          end
      | Raise e => Raise e
      end
  end.

Lemma set_numbers_automatic (n : nat) (free : Z) :
  set_numbers (replicate n None) {| number_free := free; number_used := ∅ |}
  = Ret ((λ i : nat, free + Z.of_nat i) <$> seq 0 n,
         {| number_free := free + Z.of_nat n; number_used := ∅ |}).
Proof.
  revert free. induction n as [|n IH]; intros free.
  - cbn [replicate set_numbers seq fmap list_fmap]. by rewrite Z.add_0_r.
  - cbn [replicate set_numbers]. unfold set_number.
    cbn [number_free number_used]. rewrite probe_empty, IH.
    cbn [seq fmap list_fmap]. rewrite <- fmap_S_seq, <- list_fmap_compose.
    replace (free + Z.of_nat 0) with free by lia.
    replace (free + Z.of_nat (S n)) with (free + 1 + Z.of_nat n) by lia.
    do 3 f_equal. apply list_fmap_ext. intros _ i _. cbn. lia.
Qed.

(** X8: from the initial state of the class, [n] descriptors created
    without a number get the ordinals 0 to [n - 1] in this order, which are
    pairwise different, and leave the counter at [n]. *)
Theorem automatic_numbers_count_up (n : nat) :
  ∃ numbers cls,
    set_numbers (replicate n None) initial = Ret (numbers, cls)
    ∧ numbers = Z.of_nat <$> seq 0 n
    ∧ NoDup numbers
    ∧ number_free cls = Z.of_nat n.
Proof.
  exists (Z.of_nat <$> seq 0 n),
         {| number_free := Z.of_nat n; number_used := ∅ |}.
  split; [|split; [done|split; [|done]]].
  - unfold initial. by rewrite set_numbers_automatic.
  - apply NoDup_fmap; [intros i j; lia | apply NoDup_seq].
Qed.

End Command_numbers.

(** ** The layout of the help texts *)

Section Commandlet_layout.

Import Commandlet.

Lemma length_spaces (n : nat) :
  String.length (String.concat EmptyString (replicate n " ")) = n.
Proof.
  induction n as [|n IH]; [done|]. destruct n as [|n]; [done|].
  change (String.concat EmptyString (replicate (S (S n)) " "))
    with (" " +:+ EmptyString
          +:+ String.concat EmptyString (replicate (S n) " ")).
  by rewrite !length_append, IH.
Qed.

Lemma length_ljust (s : string) (width : nat) :
  String.length (ljust s width) = Nat.max (String.length s) width.
Proof. unfold ljust. rewrite length_append, length_spaces. lia. Qed.

(** Commandlets constructed one after the other, as the decorators of a
    module do: each from its description, command name, ordinal and
    function. *)
Fixpoint construct_all (specs : list (string * string * Z * function))
    (cls : widths) : list t * widths :=
  match specs with
  | [] => ([], cls)
  | (description, command, number, func) :: rest =>
      let '(c, cls') := __init__ description command number func cls in
      let '(cs, cls'') := construct_all rest cls' in
      (c :: cs, cls'')
  end.

Definition fits (cls : widths) (self : attrs) : Prop :=
  (String.length (command self) ≤ command_width cls)%nat
  ∧ (String.length (arguments_usage self) ≤ arguments_width cls)%nat.

Lemma init_widths description command number func cls :
  let r := __init__ description command number func cls in
  command_width r.2 = Nat.max (command_width cls) (String.length command)
  ∧ arguments_width r.2
    = Nat.max (arguments_width cls) (String.length (arguments_usage r.1)).
Proof.
  cbn [__init__ fst snd command_width arguments_width attributes arguments_usage].
  split; case_decide; lia.
Qed.

Lemma construct_all_widths specs cls :
  (command_width cls ≤ command_width (construct_all specs cls).2)%nat
  ∧ (arguments_width cls ≤ arguments_width (construct_all specs cls).2)%nat
  ∧ Forall (λ c : t, fits (construct_all specs cls).2 c) (construct_all specs cls).1.
Proof.
  revert cls. induction specs as [|[[[d cmd] num] fn] rest IH];
    intros cls; [by cbn|].
  cbn [construct_all].
  destruct (__init__ d cmd num fn cls) as [c cls'] eqn:Hinit.
  destruct (init_widths d cmd num fn cls) as [Hcw Haw].
  rewrite Hinit in Hcw, Haw. cbn [fst snd] in Hcw, Haw.
  assert (Hc : command c = cmd)
    by exact (eq_sym (f_equal (λ r : t * widths, command r.1) Hinit)).
  specialize (IH cls'). destruct (construct_all rest cls') as [cs cls''].
  cbn [fst snd] in *. destruct IH as (Hcw' & Haw' & Hfits).
  repeat split; [lia | lia |].
  constructor; [|done]. unfold fits. rewrite Hc. lia.
Qed.

Lemma short_help_columns (self : attrs) (cls : widths) :
  fits cls self →
  ∃ columns,
    short_help self cls = columns +:+ description self
    ∧ String.length columns = (9 + command_width cls + arguments_width cls)%nat.
Proof.
  intros [Hc Ha].
  exists (String tab (ljust (command self) (command_width cls)) +:+ "    " +:+
          ljust (arguments_usage self) (arguments_width cls) +:+ "    ").
  split.
  - unfold short_help. by rewrite !append_assoc.
  - rewrite !length_append, !length_ljust. cbn [String.length].
    rewrite length_ljust. lia.
Qed.

(** X9: after any sequence of commandlet constructions, the short help
    lines of all of them, rendered at the widths the class then has, are
    column-aligned: in each the description starts at the same offset,
    nine characters plus the two widths. *)
Theorem short_help_lines_align (specs : list (string * string * Z * function))
    (cls : widths) :
  let '(commandlets, final) := construct_all specs cls in
  Forall (λ c : t,
            ∃ columns,
              short_help c final = columns +:+ description c
              ∧ String.length columns
                = (9 + command_width final + arguments_width final)%nat)
         commandlets.
Proof.
  pose proof (construct_all_widths specs cls) as (_ & _ & Hfits).
  destruct (construct_all specs cls) as [commandlets final]. cbn [fst snd] in Hfits.
  eapply Forall_impl; [exact Hfits|]. intros c Hc. by apply short_help_columns.
Qed.

(** *** The arguments section of the long help *)




End Commandlet_layout.

(** ** Reading a line, and the rounds of the loop *)

Section Mode_rounds.

Import Commandlet Mode.

Lemma split_first_word (sep : ascii) (s : string) :
  ∃ w ws, split sep s = w :: ws ∧ mem sep w = false.
Proof.
  induction s as [|c s (w & ws & Hsplit & Hw)]; cbn [split].
  - by exists EmptyString, [].
  - destruct (eqc c sep) eqn:Hc.
    + by exists EmptyString, (split sep s).
    + rewrite Hsplit. exists (String c w), ws. split; [done|].
      cbn [mem]. by rewrite eqc_sym, Hc.
Qed.

Lemma join_split (sep : ascii) (s : string) :
  join (String sep EmptyString) (split sep s) = s.
Proof.
  induction s as [|c s IH]; cbn [split]; [done|].
  destruct (split_first_word sep s) as (w & ws & Hsplit & _).
  rewrite Hsplit in *. destruct (Ascii.eqb_spec c sep) as [-> | Hne].
  - unfold eqc. rewrite Ascii.eqb_refl.
    change (join (String sep EmptyString) (EmptyString :: w :: ws))
      with (EmptyString +:+ String sep EmptyString
            +:+ join (String sep EmptyString) (w :: ws)).
    by rewrite IH.
  - unfold eqc. rewrite (proj2 (Ascii.eqb_neq c sep) Hne).
    destruct ws as [|w2 ws]; cbn [join] in *; [by rewrite IH|].
    by rewrite append_cons_l, IH.
Qed.

(** X11: reading a line raises nothing: the prompt is written, and the line
    without the white space around it is cut at its first space.  The
    command name is what stands before that space, and holds no space;
    the arguments are the tokens of what stands after it.  A line without
    a space is a command name without arguments. *)
Theorem line_is_cut_at_first_space (line : string) (rt : runtime) :
  ∃ command_name arguments,
    get_user_input (Some line) rt
    = (set_stdout (stdout rt ++ [prompt rt]) rt, Ret (command_name, arguments))
    ∧ mem space command_name = false
    ∧ ((strip line = command_name ∧ arguments = [])
       ∨ ∃ rest, strip line = command_name +:+ " " +:+ rest
                 ∧ ArgumentParser.parse rest = Ret arguments).
Proof.
  destruct (split_first_word space (strip line)) as (w & ws & Hsplit & Hw).
  pose proof (join_split space (strip line)) as Hjoin. rewrite Hsplit in Hjoin.
  exists w, (ArgumentParser.arguments
               (final (join " " ws) ArgumentParser.__init__)).
  split; [|split; [done|]].
  - unfold get_user_input, input. rewrite Hsplit. cbn [first tail].
    by rewrite parse_final.
  - destruct ws as [|w2 ws].
    + left. by split.
    + right. exists (join " " (w2 :: ws)). split; [by rewrite <- Hjoin|].
      apply parse_final.
Qed.

Lemma lookup_in_raise_form {A} (f : A → string) (l : list A) (text : string) e :
  lookup_in f l text = Raise e → e = IncorrectCommand text.
Proof.
  induction l as [|x l IH]; cbn [lookup_in]; [by intros [= <-]|].
  by destruct (String.eqb (f x) text).
Qed.

(** X12: a line that is exit, with or without white space around it, ends
    the loop of a mode in which that name is looked up to the built-in
    command: the prompt is written, nothing else is, and the lines after
    it are not read. *)
Theorem exit_ends_the_loop (namespace : list Commandlet.t) (line : string)
    (rest : list string) (rt : runtime) :
  strip line = "exit" →
  lookup_command namespace "exit" = Ret exit_commandlet.1 →
  loop namespace (line :: rest) rt
  = (set_stdout (stdout rt ++ [prompt rt]) rt, Terminated).
Proof.
  intros Hline Hlookup. cbn [loop]. unfold round, get_user_input, input.
  rewrite Hline.
  change (first (split space "exit")) with (Ret "exit" : result string).
  change (ArgumentParser.parse (join " " (tail (split space "exit"))))
    with (Ret [] : result (list string)).
  cbn beta iota. unfold dispatch. rewrite Hlookup. reflexivity.
Qed.

Lemma exit_ends_the_loop_witness :
  (strip " exit  " = "exit"
   ∧ lookup_command (build_namespace Mode) "exit" = Ret exit_commandlet.1)
  ∧ loop (build_namespace Mode) [" exit  "; "help"] fresh_runtime
    = (set_stdout (stdout fresh_runtime ++ [prompt fresh_runtime]) fresh_runtime,
       Terminated).
Proof.
  split; [split; reflexivity|].
  apply (exit_ends_the_loop (build_namespace Mode) " exit  " ["help"] fresh_runtime);
    reflexivity.
Defined.



(** *** How the loop can end *)










End Mode_rounds.

(** ** The built-in help *)

Section Mode_help.

Import Commandlet Mode.

Definition le_number (a b : attrs) : Prop := number a ≤ number b.

Lemma insert_by_number_perm x l : insert_by_number x l ≡ₚ x :: l.
Proof.
  induction l as [|y l IH]; cbn [insert_by_number]; [done|].
  case_decide; [done|]. by rewrite IH, Permutation_swap.
Qed.

Lemma fold_insert_perm l acc :
  fold_left (λ acc x, insert_by_number x acc) l acc ≡ₚ acc ++ l.
Proof.
  revert acc. induction l as [|x l IH]; intros acc; cbn [fold_left].
  - by rewrite app_nil_r.
  - rewrite IH, insert_by_number_perm. cbn [app]. apply Permutation_middle.
Qed.

Lemma insert_by_number_sorted x l :
  Sorted le_number l → Sorted le_number (insert_by_number x l).
Proof.
  induction l as [|y l IH]; intros Hsorted; cbn [insert_by_number].
  - by repeat constructor.
  - case_decide.
    + constructor; [done|]. constructor. unfold le_number. lia.
    + inversion Hsorted as [|? ? Hl Hhd]; subst.
      constructor; [by apply IH|].
      destruct l as [|z l]; cbn [insert_by_number].
      * constructor. unfold le_number. lia.
      * case_decide; constructor; [unfold le_number; lia | by inversion Hhd].
Qed.

Lemma fold_insert_sorted l acc :
  Sorted le_number acc →
  Sorted le_number (fold_left (λ acc x, insert_by_number x acc) l acc).
Proof.
  revert acc. induction l as [|x l IH]; intros acc Hacc; cbn [fold_left];
    [done|]. by apply IH, insert_by_number_sorted.
Qed.

Lemma fold_print (f : attrs → widths → string) (l : list attrs) (rt : runtime) :
  fold_left (λ rt c, print (f c (class_widths rt)) rt) l rt
  = set_stdout (stdout rt ++ ((λ c, f c (class_widths rt) +:+ nl) <$> l)) rt.
Proof.
  revert rt. induction l as [|c l IH]; intros rt; cbn [fold_left].
  - cbn [fmap list_fmap]. rewrite app_nil_r. by destruct rt.
  - rewrite IH. unfold print, set_stdout.
    cbn [stdout name context namespace class_widths].
    by rewrite fmap_cons, <- app_assoc.
Qed.

(** What [help] writes without a command name. *)
Definition listing (rt : runtime) (listed : list attrs) : list string :=
  ["Available commands:" +:+ nl]
  ++ ((λ c, short_help c (class_widths rt) +:+ nl) <$> listed)
  ++ [nl].

Lemma help_without_name (rt : runtime) (arguments : list pyval) :
  arguments = [] ∨ arguments = [VStr EmptyString] →
  help_body (VSelf :: arguments) [] rt
  = (set_stdout (stdout rt ++ listing rt (sorted_by_number (namespace rt))) rt,
     Ret VNone).
Proof.
  intros Hargs. unfold help_body.
  assert (Hbound : bind_arguments ["self"; "command_name"] [VStr EmptyString]
                                  (VSelf :: arguments) []
                   = Ret [VSelf; VStr EmptyString])
    by by destruct Hargs as [-> | ->].
  rewrite Hbound. cbn [truth truthy negb]. rewrite fold_print.
  unfold print, set_stdout, listing.
  cbn [stdout name context namespace class_widths].
  by rewrite <- !app_assoc.
Qed.

(** X15: help without a command name writes the heading, then one short
    help line for every entry of the namespace, each entry once, in
    ascending order of the ordinals, then an empty line; it returns
    [None] and changes nothing else. *)
Theorem help_lists_by_ordinal (rt : runtime) :
  ∃ listed,
    help_body [VSelf] [] rt
    = (set_stdout (stdout rt ++ listing rt listed) rt, Ret VNone)
    ∧ listed ≡ₚ namespace rt
    ∧ Sorted le_number listed.
Proof.
  exists (sorted_by_number (namespace rt)). split; [|split].
  - apply help_without_name. by left.
  - unfold sorted_by_number. by rewrite fold_insert_perm.
  - apply fold_insert_sorted. constructor.
Qed.

(** X16: called as the loop calls it, with at most one word after the
    command name, help returns [None] whatever the word is: it raises
    nothing, a name that is not found included, and changes nothing but
    the output, to which it only adds. *)
Theorem help_returns_normally (rt : runtime) (arguments : list string) :
  (length arguments ≤ 1)%nat →
  ∃ written,
    help_body (VSelf :: map VStr arguments) [] rt
    = (set_stdout (stdout rt ++ written) rt, Ret VNone).
Proof.
  intros Hlen. destruct arguments as [|s [|? ?]]; [| |cbn in Hlen; lia].
  - eexists. apply help_without_name. by left.
  - destruct s as [|c s].
    + eexists. apply help_without_name. by right.
    + unfold help_body. cbn [map].
      change (bind_arguments ["self"; "command_name"] [VStr EmptyString]
                             [VSelf; VStr (String c s)] [])
        with (Ret [VSelf; VStr (String c s)] : result (list pyval)).
      cbn [truth truthy negb].
      destruct (lookup_in command (namespace rt) (String c s)) as [found|e] eqn:Hlookup.
      * exists [long_help found +:+ nl; nl]. unfold print, set_stdout.
        cbn [stdout name context namespace class_widths].
        by rewrite <- app_assoc.
      * apply lookup_in_raise_form in Hlookup as ->.
        exists [("Incorrect command: " +:+ String c s) +:+ nl; nl].
        unfold print, set_stdout.
        cbn [stdout name context namespace class_widths].
        by rewrite <- app_assoc.
Qed.

Lemma help_returns_normally_witness :
  (length ["nosuch"] ≤ 1)%nat
  ∧ ∃ written,
      help_body (VSelf :: map VStr ["nosuch"]) [] fresh_runtime
      = (set_stdout (stdout fresh_runtime ++ written) fresh_runtime, Ret VNone).
Proof.
  assert (Hlen : (length ["nosuch"] ≤ 1)%nat) by (cbn; lia).
  split; [exact Hlen|].
  exact (help_returns_normally fresh_runtime ["nosuch"] Hlen).
Defined.

End Mode_help.

(** ** The namespace of a class and of its bases *)

Section Mode_namespace.

Import Commandlet Mode.

Abbreviation name_of := (λ c : Commandlet.t, command c).

Lemma add_all_sublist found namespace :
  ∃ new, add_all found namespace = namespace ++ new ∧ new `sublist_of` found.
Proof.
  revert namespace. induction found as [|value rest IH]; intros namespace;
    cbn [add_all].
  - exists []. by rewrite app_nil_r.
  - destruct (not_in value namespace).
    + destruct (IH (namespace ++ [value])) as (new & -> & Hsub).
      exists (value :: new). split; [by rewrite <- app_assoc|].
      by apply sublist_skip.
    + destruct (IH namespace) as (new & -> & Hsub).
      exists new. split; [done | by apply sublist_cons].
Qed.

(** X17: the namespace keeps the order of the walk: it is the walk over
    the class and its bases with some of its commandlets left out. *)
Theorem namespace_keeps_walk_order (cls : class) :
  build_namespace cls `sublist_of` walk cls.
Proof.
  unfold build_namespace. rewrite get_commandlets_walk.
  by destruct (add_all_sublist (walk cls) []) as (new & -> & Hsub).
Qed.

(** The lookup in the bases of a class, one after the other. *)
Fixpoint lookup_bases (bases : list class) (text : string) : result Commandlet.t :=
  match bases with
  | [] => Raise (IncorrectCommand text)
  | base :: rest =>
      match lookup_command (build_namespace base) text with
      | Ret c => Ret c
      | Raise _ => lookup_bases rest text
      end
  end.

Lemma lookup_namespace_walk cls text :
  lookup_command (build_namespace cls) text = lookup_in name_of (walk cls) text.
Proof.
  unfold build_namespace, lookup_command.
  by rewrite get_commandlets_walk, add_all_lookup.
Qed.

(** X18: a name is looked up first among the commandlets of the class
    itself, then in the namespace of its first base, then in that of the
    next base, and so on: a command of the class stands before a command
    of the same name of any base, and a base before the bases after it. *)
Theorem own_commands_come_first (items : list (string * attribute))
    (bases : list class) (text : string) :
  lookup_command (build_namespace (Class items bases)) text
  = match lookup_in name_of (own_commandlets items) text with
    | Ret c => Ret c
    | Raise _ => lookup_bases bases text
    end.
Proof.
  rewrite lookup_namespace_walk. cbn [walk]. rewrite lookup_in_app.
  destruct (lookup_in name_of (own_commandlets items) text); [done|].
  induction bases as [|base rest IH]; [done|].
  cbn [lookup_bases]. rewrite lookup_in_app, lookup_namespace_walk.
  by destruct (lookup_in name_of (walk base) text).
Qed.

End Mode_namespace.
